(** * Verification of the untyped tree parser and printer of [src/lib.rs]

    The Rust crate parses the notation with nom 5 combinators over [&str].
    We embed the input as a Stdlib [string] (a list of [ascii]); the
    combinators used by the crate ([alphanumeric1], [multispace0],
    [multispace1], [tag], [opt], [terminated], [delimited], [tuple], [map],
    [separated_list]) are written out below with the nom 5 semantics for
    complete input.  Only [Err::Error] ever arises in the crate (no [cut]),
    so a failing sub-parser is always recoverable by [opt] and
    [separated_list].

    The two mutually recursive parsers always call each other on a strictly
    shorter input, so the Rust recursion terminates; here the recursion is
    bounded by an explicit fuel, and running out of fuel is a result of its
    own ([OutOfFuel]) that the combinators propagate like a nom [Failure].
    The entry points use fuel [S (length input)], which never runs out
    (lemmas [parse_binding_f_fuel] and [parse_value_f_fuel]). *)

From Stdlib Require Import String Ascii List Arith Lia Bool.
Import ListNotations.
Open Scope string_scope.

(** ** Data model: [struct Binding], [struct Value] *)

Inductive Binding : Type :=
| mkBinding (name : string) (values : list Value)
with Value : Type :=
| mkValue (value : string) (children : list Binding).

Definition binding_name (b : Binding) : string :=
  match b with mkBinding n _ => n end.
Definition binding_values (b : Binding) : list Value :=
  match b with mkBinding _ vs => vs end.
Definition value_token (v : Value) : string :=
  match v with mkValue t _ => t end.
Definition value_children (v : Value) : list Binding :=
  match v with mkValue _ cs => cs end.

(** ** nom 5 over [&str] *)

(** [IResult<&str, O>]: [Ok (rest, output)], [Err(Err::Error(at))], and the
    fuel exhaustion of the embedding. *)
Inductive IResult (A : Type) : Type :=
| Ok (rest : string) (out : A)
| Error (at_ : string)
| OutOfFuel.
Arguments Ok {A} rest out.
Arguments Error {A} at_.
Arguments OutOfFuel {A}.

Definition parser (A : Type) : Type := string -> IResult A.

(** [AsChar::is_alphanum] for [char]: ASCII letters and decimal digits. *)
Definition is_alphanum (c : ascii) : bool :=
  let n := nat_of_ascii c in
  (((97 <=? n) && (n <=? 122)) || ((65 <=? n) && (n <=? 90))
  || ((48 <=? n) && (n <=? 57)))%nat.

(** The characters skipped by [multispace0] / [multispace1]. *)
Definition is_multispace (c : ascii) : bool :=
  (c =? " ")%char || (c =? "009")%char || (c =? "013")%char
  || (c =? "010")%char.

(** [split_at_position]: the longest prefix whose characters satisfy [p],
    and the remaining input. *)
Fixpoint take_while (p : ascii -> bool) (s : string) : string * string :=
  match s with
  | EmptyString => (EmptyString, EmptyString)
  | String c s' =>
      if p c then let (a, r) := take_while p s' in (String c a, r)
      else (EmptyString, s)
  end.

Definition alphanumeric1 : parser string := fun i =>
  let (a, r) := take_while is_alphanum i in
  match a with
  | EmptyString => Error i
  | _ => Ok r a
  end.

Definition multispace0 : parser string := fun i =>
  let (a, r) := take_while is_multispace i in Ok r a.

Definition multispace1 : parser string := fun i =>
  let (a, r) := take_while is_multispace i in
  match a with
  | EmptyString => Error i
  | _ => Ok r a
  end.

Definition tag (t : string) : parser string := fun i =>
  if String.prefix t i then Ok (substring (String.length t) (String.length i - String.length t) i) t
  else Error i.

Definition pmap {A B} (f : A -> B) (p : parser A) : parser B := fun i =>
  match p i with
  | Ok r a => Ok r (f a)
  | Error e => Error e
  | OutOfFuel => OutOfFuel
  end.

Definition tuple2 {A B} (p : parser A) (q : parser B) : parser (A * B) :=
  fun i =>
  match p i with
  | Ok r a =>
      match q r with
      | Ok r' b => Ok r' (a, b)
      | Error e => Error e
      | OutOfFuel => OutOfFuel
      end
  | Error e => Error e
  | OutOfFuel => OutOfFuel
  end.

Definition terminated {A B} (p : parser A) (q : parser B) : parser A :=
  pmap fst (tuple2 p q).

Definition delimited {A B C} (p : parser A) (q : parser B) (r : parser C)
  : parser B :=
  pmap (fun x => snd (fst x)) (tuple2 (tuple2 p q) r).

Definition opt {A} (p : parser A) : parser (option A) := fun i =>
  match p i with
  | Ok r a => Ok r (Some a)
  | Error _ => Ok i None
  | OutOfFuel => OutOfFuel
  end.

(** The [loop] of nom 5's [separated_list]: [res] is the vector built so
    far, [i] the input after its last element.  [n] bounds the number of
    iterations; each iteration that continues consumes input. *)
Fixpoint separated_list_loop {A B} (sep : parser B) (f : parser A) (n : nat)
    (i : string) (res : list A) : IResult (list A) :=
  match n with
  | O => OutOfFuel
  | S n' =>
      match sep i with
      | Error _ => Ok i res
      | OutOfFuel => OutOfFuel
      | Ok i1 _ =>
          if String.eqb i1 i then Error i1 else
          match f i1 with
          | Error _ => Ok i res
          | OutOfFuel => OutOfFuel
          | Ok i2 o =>
              if String.eqb i2 i then Error i2 else
              separated_list_loop sep f n' i2 (app res [o])
          end
      end
  end.

Definition separated_list {A B} (sep : parser B) (f : parser A)
  : parser (list A) := fun i =>
  match f i with
  | Error _ => Ok i []
  | OutOfFuel => OutOfFuel
  | Ok i1 o =>
      if String.eqb i1 i then Error i1 else
      separated_list_loop sep f (S (String.length i1)) i1 [o]
  end.

(** ** [parse_binding], [parse_value] *)

Fixpoint parse_binding_f (fuel : nat) : parser Binding :=
  match fuel with
  | O => fun _ => OutOfFuel
  | S fuel' =>
      pmap (fun '(name, values) => mkBinding name values)
        (tuple2
           (terminated alphanumeric1 (tag "="))
           (separated_list (terminated (tag ",") multispace0)
              (parse_value_f fuel')))
  end
with parse_value_f (fuel : nat) : parser Value :=
  match fuel with
  | O => fun _ => OutOfFuel
  | S fuel' =>
      pmap (fun '(value, children) =>
              mkValue value (match children with
                             | Some cs => cs
                             | None => []
                             end))
        (tuple2
           (terminated alphanumeric1 multispace0)
           (opt (delimited
                   (terminated (tag "{") multispace0)
                   (separated_list multispace1 (parse_binding_f fuel'))
                   (terminated (tag "}") multispace0))))
  end.

Definition parse_binding (input : string) : IResult Binding :=
  parse_binding_f (S (String.length input)) input.

Definition parse_value (input : string) : IResult Value :=
  parse_value_f (S (String.length input)) input.

(** ** [print_binding], [print_value] *)

Fixpoint print_binding (b : Binding) : string :=
  match b with
  | mkBinding name values =>
      name ++ "=" ++ String.concat "," (map print_value values)
  end
with print_value (v : Value) : string :=
  match v with
  | mkValue value children =>
      value ++
      (match children with
       | [] => ""
       | _ => "{" ++ String.concat " " (map print_binding children) ++ "}"
       end)
  end.

Definition leaf (t : string) : Value := mkValue t [].


(** ** Strings *)

Definition starts_with (p : ascii -> bool) (s : string) : bool :=
  match s with
  | EmptyString => false
  | String c _ => p c
  end.

Definition is_ident (s : string) : bool :=
  negb (String.eqb s "") && String.eqb (fst (take_while is_alphanum s)) s.

(** The input left by [multispace0]. *)
Definition strip_ws (s : string) : string := snd (take_while is_multispace s).

(** ** Auxiliary definitions for the proofs *)

Definition suffix (r s : string) : Prop := exists p, s = p ++ r.

(** A parser that only ever returns a suffix of its input. *)
Definition suffixing {A} (p : parser A) : Prop :=
  forall j r a, p j = Ok r a -> suffix r j.

(** A parser that consumes at least one character when it succeeds. *)
Definition consuming {A} (p : parser A) : Prop :=
  forall j r a, p j = Ok r a -> String.length r < String.length j.

(** A parser that does not run out of fuel on inputs shorter than [L]. *)
Definition fuel_ok {A} (L : nat) (p : parser A) : Prop :=
  forall j, String.length j < L -> p j <> OutOfFuel.

(** What a successful [separated_list] returns: every element is an output
    of [f], the remaining input is the one left by the last element, and
    every element but the last was followed by a separator. *)
Definition produced {A} (f : parser A) (x : A) : Prop := exists j r, f j = Ok r x.
Definition separated {A B} (sep : parser B) (f : parser A) (x : A) : Prop :=
  exists j r r' u, f j = Ok r x /\ sep r = Ok r' u.

Definition sl_state {A B} (sep : parser B) (f : parser A) (i : string) (xs : list A)
  : Prop :=
  exists pre x, xs = app pre [x] /\ (exists j, f j = Ok i x) /\
    Forall (produced f) xs /\ Forall (separated sep f) pre.

Definition comma_sep : parser string := terminated (tag ",") multispace0.

Definition block (p : parser (list Binding)) : parser (option (list Binding)) :=
  opt (delimited (terminated (tag "{") multispace0) p
         (terminated (tag "}") multispace0)).

(** C9's invariant: every name and token is an identifier. *)
Fixpoint idents_binding (b : Binding) : bool :=
  match b with
  | mkBinding name values => is_ident name && forallb idents_value values
  end
with idents_value (v : Value) : bool :=
  match v with
  | mkValue value children => is_ident value && forallb idents_binding children
  end.

Definition no_values (b : Binding) : bool :=
  match binding_values b with [] => true | _ => false end.

Fixpoint all_but_last {A} (p : A -> bool) (l : list A) : bool :=
  match l with
  | [] => true
  | x :: l' => match l' with [] => true | _ => p x && all_but_last p l' end
  end.

(** The trees the parser can return: identifiers everywhere, and inside a
    block every binding but the last has no value (a value swallows the
    whitespace after it, so the separator between sibling bindings is only
    found after a binding that ends right after its [=]). *)
Fixpoint canon_binding (b : Binding) : bool :=
  match b with
  | mkBinding name values => is_ident name && forallb canon_value values
  end
with canon_value (v : Value) : bool :=
  match v with
  | mkValue value children =>
      is_ident value && forallb canon_binding children
      && all_but_last no_values children
  end.

Section TreeInd.
Variables (PB : Binding -> Prop) (PV : Value -> Prop).
Hypothesis HB : forall name values, Forall PV values -> PB (mkBinding name values).
Hypothesis HV : forall value children, Forall PB children -> PV (mkValue value children).

Fixpoint binding_ind' (b : Binding) : PB b :=
  match b with
  | mkBinding name values =>
      HB name values
        ((fix go (l : list Value) : Forall PV l :=
            match l with
            | [] => Forall_nil _
            | v :: l' => Forall_cons v (value_ind' v) (go l')
            end) values)
  end
with value_ind' (v : Value) : PV v :=
  match v with
  | mkValue value children =>
      HV value children
        ((fix go (l : list Binding) : Forall PB l :=
            match l with
            | [] => Forall_nil _
            | b :: l' => Forall_cons b (binding_ind' b) (go l')
            end) children)
  end.

End TreeInd.

(** [sep ++ x1 ++ sep ++ x2 ++ ... ++ sep ++ xk ++ s] *)
Definition sep_prefixed (sep : string) (l : list string) (s : string) : string :=
  fold_right (fun y acc => sep ++ y ++ acc) s l.

(** The nesting depth of a tree, which bounds the fuel its parse needs. *)
Fixpoint height_binding (b : Binding) : nat :=
  match b with
  | mkBinding _ values => S (list_max (map height_value values))
  end
with height_value (v : Value) : nat :=
  match v with
  | mkValue _ children => S (list_max (map height_binding children))
  end.

Definition starts_char (c : ascii) (s : string) : bool :=
  starts_with (fun x => Ascii.eqb x c) s.

(** What may follow a printed value, and a printed binding, without being
    taken into them by the parser. *)
Definition follows_value (s : string) : Prop :=
  starts_with is_alphanum s = false /\ starts_char "{" (strip_ws s) = false.

Definition follows_binding (s : string) : Prop :=
  follows_value s /\ starts_char "," (strip_ws s) = false.

(** Where the parse of a printed binding stops: right after its [=] when it
    has no value, after the whitespace that follows its last value
    otherwise. *)
Definition binding_rest (b : Binding) (s : string) : string :=
  match binding_values b with [] => s | _ => strip_ws s end.

Definition reparses_binding (n : nat) (c : Binding) : Prop :=
  canon_binding c = true /\
  forall s', follows_binding s' ->
  parse_binding_f n (print_binding c ++ s') = Ok (binding_rest c s') c.

Definition reparses_value (n : nat) (v : Value) : Prop :=
  canon_value v = true /\
  forall s', follows_value s' ->
  parse_value_f n (print_value v ++ s') = Ok (strip_ws s') v.

(** Whether the character [c] occurs in [s]. *)
Fixpoint contains (c : ascii) (s : string) : bool :=
  match s with
  | EmptyString => false
  | String d s' => Ascii.eqb d c || contains c s'
  end.

(** [j] is some text without the character [c] followed by [r]. *)
Definition consumed_without (c : ascii) (j r : string) : Prop :=
  exists p, j = p ++ r /\ contains c p = false.

Definition two_siblings : Binding :=
  mkBinding "foo" [mkValue "x" [mkBinding "a" [leaf "b"]; mkBinding "c" [leaf "d"]]].

Lemma append_assoc (a b c : string) : (a ++ b) ++ c = a ++ (b ++ c).
Proof. induction a; simpl; congruence. Qed.

Lemma append_empty_r (a : string) : a ++ "" = a.
Proof. induction a; simpl; congruence. Qed.

Lemma length_append (a b : string) :
  String.length (a ++ b) = String.length a + String.length b.
Proof. induction a; simpl; auto. Qed.

Lemma take_while_app (p : ascii -> bool) (s : string) :
  fst (take_while p s) ++ snd (take_while p s) = s.
Proof.
  induction s as [|c s IH]; simpl; auto.
  destruct (p c); simpl; auto.
  destruct (take_while p s) as [a r]; simpl in *; congruence.
Qed.

Lemma take_while_stop (p : ascii -> bool) (s : string) :
  starts_with p (snd (take_while p s)) = false.
Proof.
  induction s as [|c s IH]; simpl; auto.
  destruct (p c) eqn:E; simpl.
  - destruct (take_while p s) as [a r]; exact IH.
  - exact E.
Qed.

Lemma take_while_nostart (p : ascii -> bool) (s : string) :
  starts_with p s = false -> take_while p s = ("", s).
Proof. destruct s; simpl; auto. intros ->; reflexivity. Qed.

(** [take_while p (a ++ s)] when [a] is a run of [p] and [s] does not
    continue it. *)
Lemma take_while_run (p : ascii -> bool) (a s : string) :
  fst (take_while p a) = a -> starts_with p s = false ->
  take_while p (a ++ s) = (a, s).
Proof.
  induction a as [|c a IH]; simpl; intros Ha Hs.
  - apply take_while_nostart; exact Hs.
  - destruct (p c) eqn:E; simpl in *.
    + destruct (take_while p a) as [a' r'] eqn:Ea; simpl in Ha.
      injection Ha as Ha. subst a'. rewrite IH; auto.
    + discriminate.
Qed.

Lemma is_ident_run (t : string) :
  is_ident t = true -> fst (take_while is_alphanum t) = t /\ t <> "".
Proof.
  unfold is_ident. intros H. apply andb_true_iff in H as [H1 H2].
  apply String.eqb_eq in H2. split; auto.
  intros ->. discriminate.
Qed.

Lemma is_ident_starts (t s : string) :
  is_ident t = true -> starts_with is_alphanum (t ++ s) = true.
Proof.
  intros H. apply is_ident_run in H as [H1 H2].
  destruct t as [|c t]; [congruence|]. simpl in *.
  destruct (is_alphanum c); auto.
Qed.

Lemma starts_alnum_not_ws (s : string) :
  starts_with is_alphanum s = true -> starts_with is_multispace s = false.
Proof.
  destruct s as [|c s]; simpl; [discriminate|].
  intros H. destruct (is_multispace c) eqn:E; auto.
  exfalso. revert H E.
  destruct c as [[] [] [] [] [] [] [] []]; vm_compute; congruence.
Qed.

Lemma strip_ws_nows (s : string) :
  starts_with is_multispace s = false -> strip_ws s = s.
Proof. intros H. unfold strip_ws. rewrite take_while_nostart; auto. Qed.

Lemma strip_ws_stop (s : string) :
  starts_with is_multispace (strip_ws s) = false.
Proof. apply take_while_stop. Qed.

Lemma strip_ws_idem (s : string) : strip_ws (strip_ws s) = strip_ws s.
Proof. apply strip_ws_nows, strip_ws_stop. Qed.

(** ** The combinators on known inputs *)

Lemma alphanumeric1_run (t s : string) :
  is_ident t = true -> starts_with is_alphanum s = false ->
  alphanumeric1 (t ++ s) = Ok s t.
Proof.
  intros Ht Hs. apply is_ident_run in Ht as [H1 H2].
  unfold alphanumeric1. rewrite take_while_run; auto.
  destruct t; [congruence|reflexivity].
Qed.

Lemma alphanumeric1_fail (s : string) :
  starts_with is_alphanum s = false -> alphanumeric1 s = Error s.
Proof. intros H. unfold alphanumeric1. rewrite take_while_nostart; auto. Qed.

Lemma multispace0_strip (s : string) :
  exists w, multispace0 s = Ok (strip_ws s) w.
Proof.
  unfold multispace0, strip_ws. destruct (take_while is_multispace s).
  eexists; reflexivity.
Qed.

Lemma multispace1_fail (s : string) :
  starts_with is_multispace s = false -> multispace1 s = Error s.
Proof. intros H. unfold multispace1. rewrite take_while_nostart; auto. Qed.

Lemma multispace1_space (s : string) :
  starts_with is_multispace s = false -> multispace1 (" " ++ s) = Ok s " ".
Proof.
  intros H. unfold multispace1.
  change (" " ++ s) with (String " " s). simpl.
  rewrite take_while_nostart; auto.
Qed.

Lemma prefix_app (t s : string) : String.prefix t (t ++ s) = true.
Proof.
  induction t as [|c t IH]; simpl.
  - destruct s; reflexivity.
  - destruct (ascii_dec c c); [exact IH | congruence].
Qed.

Lemma substring_app (t s : string) :
  substring (String.length t) (String.length (t ++ s) - String.length t)
    (t ++ s) = s.
Proof.
  rewrite length_append, Nat.add_comm, Nat.add_sub.
  induction t as [|c t IH]; simpl; auto.
  induction s as [|c s IH]; simpl; auto.
  rewrite IH. reflexivity.
Qed.

Lemma tag_app (t s : string) : tag t (t ++ s) = Ok s t.
Proof. unfold tag. rewrite prefix_app, substring_app. reflexivity. Qed.

(** A one-character [tag] fails on an input that does not start with it. *)
Lemma tag_fail (c : ascii) (s : string) :
  starts_with (fun x => Ascii.eqb x c) s = false ->
  tag (String c "") s = Error s.
Proof.
  intros H. unfold tag. destruct s as [|d s]; simpl in *; auto.
  destruct (ascii_dec c d); auto.
  subst. rewrite Ascii.eqb_refl in H. discriminate.
Qed.

(** ** Parsers return a suffix of their input; fuel never runs out *)

Lemma suffix_refl (s : string) : suffix s s.
Proof. exists ""; reflexivity. Qed.

Lemma suffix_trans (a b c : string) : suffix a b -> suffix b c -> suffix a c.
Proof.
  intros [p ->] [q ->]. exists (q ++ p). now rewrite append_assoc.
Qed.

Lemma suffix_length (r s : string) :
  suffix r s -> String.length r <= String.length s.
Proof. intros [p ->]. rewrite length_append. lia. Qed.

Lemma suffix_neq_lt (r s : string) :
  suffix r s -> r <> s -> String.length r < String.length s.
Proof.
  intros [p ->] Hne. destruct p as [|c p]; [now destruct Hne|].
  simpl. rewrite length_append. lia.
Qed.

Lemma take_while_suffix (p : ascii -> bool) (s : string) :
  suffix (snd (take_while p s)) s.
Proof. exists (fst (take_while p s)). symmetry. apply take_while_app. Qed.

Lemma prefix_split (t i : string) :
  String.prefix t i = true ->
  i = t ++ substring (String.length t) (String.length i - String.length t) i.
Proof.
  revert i. induction t as [|c t IH]; intros i H.
  - simpl. rewrite Nat.sub_0_r. clear H. induction i as [|d i IHi]; simpl; auto.
    f_equal. exact IHi.
  - destruct i as [|d i]; simpl in H; [discriminate|].
    destruct (ascii_dec c d) as [<-|]; [|discriminate].
    simpl. f_equal. apply IH. exact H.
Qed.

Create HintDb parsers.

Lemma alphanumeric1_suffixing : suffixing alphanumeric1.
Proof.
  intros j r a. unfold alphanumeric1. pose proof (take_while_suffix is_alphanum j).
  destruct (take_while is_alphanum j) as [x y]; simpl in *.
  destruct x; intros E; inversion E; subst; auto.
Qed.

Lemma multispace0_suffixing : suffixing multispace0.
Proof.
  intros j r a. unfold multispace0. pose proof (take_while_suffix is_multispace j).
  destruct (take_while is_multispace j) as [x y]; simpl in *.
  intros E; inversion E; subst; auto.
Qed.

Lemma multispace1_suffixing : suffixing multispace1.
Proof.
  intros j r a. unfold multispace1. pose proof (take_while_suffix is_multispace j).
  destruct (take_while is_multispace j) as [x y]; simpl in *.
  destruct x; intros E; inversion E; subst; auto.
Qed.

Lemma tag_suffixing (t : string) : suffixing (tag t).
Proof.
  intros j r a. unfold tag. destruct (String.prefix t j) eqn:E; [|discriminate].
  intros H. injection H as <- <-. exists t. apply prefix_split. exact E.
Qed.

Lemma take_while_consuming (p : ascii -> bool) (j : string) :
  fst (take_while p j) <> "" ->
  String.length (snd (take_while p j)) < String.length j.
Proof.
  intros H. rewrite <- (take_while_app p j) at 2. rewrite length_append.
  destruct (fst (take_while p j)); [congruence|simpl; lia].
Qed.

Lemma alphanumeric1_consuming : consuming alphanumeric1.
Proof.
  intros j r a. unfold alphanumeric1. pose proof (take_while_consuming is_alphanum j).
  destruct (take_while is_alphanum j) as [x y]; simpl in *.
  destruct x; intros E; inversion E; subst; apply H; discriminate.
Qed.

Lemma multispace1_consuming : consuming multispace1.
Proof.
  intros j r a. unfold multispace1. pose proof (take_while_consuming is_multispace j).
  destruct (take_while is_multispace j) as [x y]; simpl in *.
  destruct x; intros E; inversion E; subst; apply H; discriminate.
Qed.

Lemma tag_consuming (c : ascii) : consuming (tag (String c "")).
Proof.
  intros j r a H. apply tag_suffixing in H as Hs.
  unfold tag in H. destruct (String.prefix (String c "") j) eqn:E; [|discriminate].
  injection H as <- <-. apply prefix_split in E.
  remember (substring _ _ j) as r eqn:Er. clear Er Hs.
  rewrite E. simpl. lia.
Qed.

Lemma take_fuel_ok (L : nat) :
  fuel_ok L alphanumeric1 /\ fuel_ok L multispace0 /\ fuel_ok L multispace1
  /\ (forall t, fuel_ok L (tag t)).
Proof.
  unfold fuel_ok, alphanumeric1, multispace0, multispace1, tag.
  repeat split.
  - intros j _. destruct (take_while is_alphanum j) as [[|] ?]; discriminate.
  - intros j _. destruct (take_while is_multispace j) as [? ?]; discriminate.
  - intros j _. destruct (take_while is_multispace j) as [[|] ?]; discriminate.
  - intros t j _. destruct (String.prefix t j); discriminate.
Qed.

#[export] Hint Resolve alphanumeric1_suffixing multispace0_suffixing
  multispace1_suffixing tag_suffixing alphanumeric1_consuming
  multispace1_consuming tag_consuming : parsers.

(** ** Closure of the three properties under the combinators *)


Lemma pmap_suffixing {A B : Type} (g : A -> B) (p : parser A) :
  suffixing p -> suffixing (pmap g p).
Proof.
  intros Hp j r b. unfold pmap. destruct (p j) eqn:E; try discriminate.
  intros H. injection H as <- _. eapply Hp; eauto.
Qed.

Lemma pmap_consuming {A B : Type} (g : A -> B) (p : parser A) :
  consuming p -> consuming (pmap g p).
Proof.
  intros Hp j r b. unfold pmap. destruct (p j) eqn:E; try discriminate.
  intros H. injection H as <- _. eapply Hp; eauto.
Qed.

Lemma pmap_fuel_ok {A B : Type} (L : nat) (g : A -> B) (p : parser A) :
  fuel_ok L p -> fuel_ok L (pmap g p).
Proof.
  intros Hp j Hj. specialize (Hp j Hj). unfold pmap.
  destruct (p j); congruence.
Qed.

Lemma tuple2_suffixing {A B : Type} (p : parser A) (q : parser B) :
  suffixing p -> suffixing q -> suffixing (tuple2 p q).
Proof.
  intros Hp Hq j r ab. unfold tuple2.
  destruct (p j) as [r1 a| |] eqn:E1; try discriminate.
  destruct (q r1) as [r2 b| |] eqn:E2; try discriminate.
  intros H. injection H as <- _. eapply suffix_trans; eauto.
Qed.

(** A pair whose first component consumes input consumes input. *)
Lemma tuple2_consuming {A B : Type} (p : parser A) (q : parser B) :
  consuming p -> suffixing q -> consuming (tuple2 p q).
Proof.
  intros Hp Hq j r ab. unfold tuple2.
  destruct (p j) as [r1 a| |] eqn:E1; try discriminate.
  destruct (q r1) as [r2 b| |] eqn:E2; try discriminate.
  intros H. injection H as <- _.
  apply Hp in E1. apply Hq, suffix_length in E2. lia.
Qed.

(** The second component of a pair runs on a strictly shorter input when
    the first one consumes; it may have one unit less of length budget. *)
Lemma tuple2_fuel_ok {A B : Type} (L : nat) (p : parser A) (q : parser B) :
  fuel_ok (S L) p -> consuming p -> fuel_ok L q -> fuel_ok (S L) (tuple2 p q).
Proof.
  intros Hp Hc Hq j Hj. unfold tuple2.
  specialize (Hp j Hj).
  destruct (p j) as [r1 a| |] eqn:E1; try congruence.
  apply Hc in E1.
  specialize (Hq r1 ltac:(lia)). destruct (q r1); congruence.
Qed.

Lemma terminated_suffixing {A B : Type} (p : parser A) (q : parser B) :
  suffixing p -> suffixing q -> suffixing (terminated p q).
Proof. intros. apply pmap_suffixing, tuple2_suffixing; auto. Qed.

Lemma terminated_consuming {A B : Type} (p : parser A) (q : parser B) :
  consuming p -> suffixing q -> consuming (terminated p q).
Proof. intros. apply pmap_consuming, tuple2_consuming; auto. Qed.

Lemma terminated_fuel_ok {A B : Type} (L : nat) (p : parser A) (q : parser B) :
  fuel_ok L p -> suffixing p -> fuel_ok L q -> fuel_ok L (terminated p q).
Proof.
  intros Hp Hs Hq. apply pmap_fuel_ok. intros j Hj. unfold tuple2.
  specialize (Hp j Hj).
  destruct (p j) as [r1 a| |] eqn:E1; try congruence.
  apply Hs, suffix_length in E1.
  specialize (Hq r1 ltac:(lia)). destruct (q r1); congruence.
Qed.

Lemma delimited_suffixing {A B C : Type} (p : parser A) (q : parser B) (r : parser C) :
  suffixing p -> suffixing q -> suffixing r -> suffixing (delimited p q r).
Proof. intros. apply pmap_suffixing; repeat apply tuple2_suffixing; auto. Qed.

Lemma delimited_fuel_ok {A B C : Type} (L : nat) (p : parser A) (q : parser B) (r : parser C) :
  fuel_ok L p -> suffixing p -> fuel_ok L q -> suffixing q -> fuel_ok L r ->
  fuel_ok L (delimited p q r).
Proof.
  intros Hp Hps Hq Hqs Hr. apply pmap_fuel_ok. intros j Hj. unfold tuple2.
  specialize (Hp j Hj).
  destruct (p j) as [r1 a| |] eqn:E1; try congruence.
  apply Hps, suffix_length in E1.
  specialize (Hq r1 ltac:(lia)).
  destruct (q r1) as [r2 b| |] eqn:E2; try congruence.
  apply Hqs, suffix_length in E2.
  specialize (Hr r2 ltac:(lia)). destruct (r r2); congruence.
Qed.

Lemma opt_suffixing {A : Type} (p : parser A) : suffixing p -> suffixing (opt p).
Proof.
  intros Hp j r o. unfold opt. destruct (p j) eqn:E; try discriminate;
    intros H; injection H as <- _; eauto using suffix_refl.
Qed.

Lemma opt_fuel_ok {A : Type} (L : nat) (p : parser A) : fuel_ok L p -> fuel_ok L (opt p).
Proof.
  intros Hp j Hj. specialize (Hp j Hj). unfold opt. destruct (p j); congruence.
Qed.


#[export] Hint Resolve pmap_suffixing tuple2_suffixing tuple2_consuming
  terminated_suffixing terminated_consuming delimited_suffixing
  opt_suffixing : parsers.

(** ** [separated_list] *)

Section SeparatedList.
Context {A B : Type} (sep : parser B) (f : parser A).

Lemma separated_list_loop_suffixing :
  suffixing sep -> suffixing f ->
  forall n i res r xs, separated_list_loop sep f n i res = Ok r xs -> suffix r i.
Proof.
  intros Hs Hf. induction n as [|n IH]; intros i res r xs; simpl; [discriminate|].
  destruct (sep i) as [i1 u| |] eqn:Es.
  - destruct (String.eqb i1 i); [discriminate|].
    destruct (f i1) as [i2 o| |] eqn:Ef.
    + destruct (String.eqb i2 i); [discriminate|].
      intros H. apply IH in H. apply Hf in Ef. apply Hs in Es.
      eauto using suffix_trans.
    + intros H. injection H as <- _. apply suffix_refl.
    + discriminate.
  - intros H. injection H as <- _. apply suffix_refl.
  - discriminate.
Qed.

Lemma separated_list_suffixing :
  suffixing sep -> suffixing f -> suffixing (separated_list sep f).
Proof.
  intros Hs Hf j r xs. unfold separated_list.
  destruct (f j) as [i1 o| |] eqn:Ef.
  - destruct (String.eqb i1 j); [discriminate|].
    intros H. apply separated_list_loop_suffixing in H; auto.
    apply Hf in Ef. eauto using suffix_trans.
  - intros H. injection H as <- _. apply suffix_refl.
  - discriminate.
Qed.

Lemma separated_list_loop_fuel_ok (L : nat) :
  suffixing sep -> suffixing f -> fuel_ok L sep -> fuel_ok L f ->
  forall n i res, String.length i < n -> String.length i < L ->
  separated_list_loop sep f n i res <> OutOfFuel.
Proof.
  intros Hs Hf Fs Ff. induction n as [|n IH]; intros i res Hn HL; [lia|].
  simpl. specialize (Fs i HL).
  destruct (sep i) as [i1 u| |] eqn:Es; try congruence.
  apply Hs in Es.
  destruct (String.eqb i1 i); [discriminate|].
  assert (Hi1 : String.length i1 < L) by (apply suffix_length in Es; lia).
  specialize (Ff i1 Hi1).
  destruct (f i1) as [i2 o| |] eqn:Ef; try congruence.
  apply Hf in Ef.
  destruct (String.eqb i2 i) eqn:E2; [discriminate|].
  apply String.eqb_neq in E2.
  assert (Hlt : String.length i2 < String.length i)
    by (apply suffix_neq_lt; eauto using suffix_trans).
  apply IH; lia.
Qed.

Lemma separated_list_fuel_ok (L : nat) :
  suffixing sep -> suffixing f -> fuel_ok L sep -> fuel_ok L f ->
  fuel_ok L (separated_list sep f).
Proof.
  intros Hs Hf Fs Ff j Hj. unfold separated_list.
  specialize (Ff j Hj) as Fj.
  destruct (f j) as [i1 o| |] eqn:Ef; try congruence.
  destruct (String.eqb i1 j); [discriminate|].
  apply Hf, suffix_length in Ef.
  apply separated_list_loop_fuel_ok with (L := L); auto; lia.
Qed.

(** With separator and element parsers that consume and never run out of
    fuel, [separated_list] never fails. *)
Lemma separated_list_loop_ok (L : nat) :
  suffixing sep -> suffixing f -> fuel_ok L sep -> fuel_ok L f ->
  consuming sep -> consuming f ->
  forall n i res, String.length i < n -> String.length i < L ->
  exists r xs, separated_list_loop sep f n i res = Ok r xs.
Proof.
  intros Hs Hf Fs Ff Cs Cf. induction n as [|n IH]; intros i res Hn HL; [lia|].
  simpl. specialize (Fs i HL).
  destruct (sep i) as [i1 u| |] eqn:Es; try congruence; [|eauto].
  pose proof (Cs _ _ _ Es) as Li1. apply Hs in Es.
  destruct (String.eqb i1 i) eqn:E1.
  { apply String.eqb_eq in E1. subst. lia. }
  assert (Hi1 : String.length i1 < L) by lia.
  specialize (Ff i1 Hi1).
  destruct (f i1) as [i2 o| |] eqn:Ef; try congruence; [|eauto].
  pose proof (Cf _ _ _ Ef) as Li2.
  destruct (String.eqb i2 i) eqn:E2.
  { apply String.eqb_eq in E2. subst. lia. }
  apply IH; lia.
Qed.

Lemma separated_list_ok (L : nat) :
  suffixing sep -> suffixing f -> fuel_ok L sep -> fuel_ok L f ->
  consuming sep -> consuming f ->
  forall i, String.length i < L ->
  exists r xs, separated_list sep f i = Ok r xs.
Proof.
  intros Hs Hf Fs Ff Cs Cf i HL. unfold separated_list.
  specialize (Ff i HL) as Fi.
  destruct (f i) as [i1 o| |] eqn:Ef; try congruence; [|eauto].
  pose proof (Cf _ _ _ Ef) as Li1.
  destruct (String.eqb i1 i) eqn:E1.
  { apply String.eqb_eq in E1. subst. lia. }
  apply separated_list_loop_ok with (L := L); auto; lia.
Qed.

Lemma separated_list_loop_outputs :
  forall n i res r xs, sl_state sep f i res ->
  separated_list_loop sep f n i res = Ok r xs -> sl_state sep f r xs.
Proof.
  induction n as [|n IH]; intros i res r xs Hst; simpl; [discriminate|].
  destruct (sep i) as [i1 u| |] eqn:Es.
  - destruct (String.eqb i1 i); [discriminate|].
    destruct (f i1) as [i2 o| |] eqn:Ef.
    + destruct (String.eqb i2 i); [discriminate|].
      apply IH.
      destruct Hst as (pre & x & -> & [j Hj] & Hp & Hq).
      exists (app pre [x]), o. repeat split; eauto.
      * apply Forall_app. split; auto. constructor; [|constructor].
        exists i1, i2. exact Ef.
      * apply Forall_app. split; auto. constructor; [|constructor].
        exists j, i, i1, u. auto.
    + intros H. injection H as <- <-. exact Hst.
    + discriminate.
  - intros H. injection H as <- <-. exact Hst.
  - discriminate.
Qed.

Lemma separated_list_outputs (i r : string) (xs : list A) :
  separated_list sep f i = Ok r xs ->
  (xs = [] /\ r = i) \/ sl_state sep f r xs.
Proof.
  unfold separated_list.
  destruct (f i) as [i1 o| |] eqn:Ef.
  - destruct (String.eqb i1 i); [discriminate|].
    intros H. right. eapply separated_list_loop_outputs; [|exact H].
    exists [], o. repeat split; eauto.
    constructor; [|constructor]. exists i, i1. exact Ef.
  - intros H. injection H as <- <-. left. auto.
  - discriminate.
Qed.

End SeparatedList.

(** ** The parsers: suffixes, consumption, fuel *)

Lemma parse_binding_f_S (n : nat) :
  parse_binding_f (S n) =
  pmap (fun '(name, values) => mkBinding name values)
    (tuple2 (terminated alphanumeric1 (tag "="))
       (separated_list comma_sep (parse_value_f n))).
Proof. reflexivity. Qed.

Lemma parse_value_f_S (n : nat) :
  parse_value_f (S n) =
  pmap (fun '(value, children) =>
          mkValue value (match children with
                         | Some cs => cs
                         | None => []
                         end))
    (tuple2 (terminated alphanumeric1 multispace0)
       (block (separated_list multispace1 (parse_binding_f n)))).
Proof. reflexivity. Qed.

Lemma comma_sep_props (L : nat) :
  suffixing comma_sep /\ consuming comma_sep /\ fuel_ok L comma_sep.
Proof.
  unfold comma_sep. destruct (take_fuel_ok L) as (F1 & F2 & F3 & F4).
  repeat split; auto with parsers.
  apply terminated_fuel_ok; auto with parsers.
Qed.

Lemma block_suffixing (p : parser (list Binding)) :
  suffixing p -> suffixing (block p).
Proof. intros. unfold block. auto 10 with parsers. Qed.

Lemma block_fuel_ok (L : nat) (p : parser (list Binding)) :
  suffixing p -> fuel_ok L p -> fuel_ok L (block p).
Proof.
  intros Hs Hf. destruct (take_fuel_ok L) as (F1 & F2 & F3 & F4).
  unfold block. apply opt_fuel_ok, delimited_fuel_ok; auto with parsers;
    apply terminated_fuel_ok; auto with parsers.
Qed.

Lemma parse_suffixing (n : nat) :
  suffixing (parse_binding_f n) /\ suffixing (parse_value_f n).
Proof.
  induction n as [|n [IHb IHv]].
  - split; intros j r a H; discriminate.
  - rewrite parse_binding_f_S, parse_value_f_S.
    destruct (comma_sep_props 0) as (Hc & _).
    split; apply pmap_suffixing, tuple2_suffixing; auto with parsers.
    + apply separated_list_suffixing; auto.
    + apply block_suffixing, separated_list_suffixing; auto with parsers.
Qed.

Lemma parse_consuming (n : nat) :
  consuming (parse_binding_f n) /\ consuming (parse_value_f n).
Proof.
  destruct n as [|n].
  - split; intros j r a H; discriminate.
  - rewrite parse_binding_f_S, parse_value_f_S.
    destruct (parse_suffixing n) as [Hb Hv].
    destruct (comma_sep_props 0) as (Hc & _).
    split; apply pmap_consuming, tuple2_consuming; auto with parsers.
    + apply separated_list_suffixing; auto.
    + apply block_suffixing, separated_list_suffixing; auto with parsers.
Qed.

(** Fuel [n] suffices for every input shorter than [n]. *)
Lemma parse_fuel_ok (n : nat) :
  fuel_ok n (parse_binding_f n) /\ fuel_ok n (parse_value_f n).
Proof.
  induction n as [|n [IHb IHv]].
  - split; intros j Hj; lia.
  - rewrite parse_binding_f_S, parse_value_f_S.
    destruct (parse_suffixing n) as [Sb Sv].
    destruct (comma_sep_props n) as (Hc & Cc & Fc).
    destruct (take_fuel_ok (S n)) as (F1 & F2 & F3 & F4).
    destruct (take_fuel_ok n) as (G1 & G2 & G3 & G4).
    split; apply pmap_fuel_ok, tuple2_fuel_ok; auto with parsers;
      try (apply terminated_fuel_ok; auto with parsers).
    + apply separated_list_fuel_ok; auto.
    + apply block_fuel_ok.
      * apply separated_list_suffixing; auto with parsers.
      * apply separated_list_fuel_ok; auto with parsers.
Qed.

Lemma parse_binding_f_fuel (s : string) :
  parse_binding_f (S (String.length s)) s <> OutOfFuel.
Proof. apply (proj1 (parse_fuel_ok _)). lia. Qed.

Lemma parse_value_f_fuel (s : string) :
  parse_value_f (S (String.length s)) s <> OutOfFuel.
Proof. apply (proj2 (parse_fuel_ok _)). lia. Qed.

(** ** Shape of the trees the parser returns *)

Lemma canon_idents :
  (forall b, canon_binding b = true -> idents_binding b = true) /\
  (forall v, canon_value v = true -> idents_value v = true).
Proof.
  split; [apply (binding_ind' (fun b => canon_binding b = true -> idents_binding b = true)
                             (fun v => canon_value v = true -> idents_value v = true))
         |apply (value_ind' (fun b => canon_binding b = true -> idents_binding b = true)
                             (fun v => canon_value v = true -> idents_value v = true))];
  intros x l Hl H; simpl in *;
  repeat rewrite andb_true_iff in *; intuition;
  rewrite forallb_forall in *; rewrite Forall_forall in Hl; auto.
Qed.

Lemma all_but_last_app {A} (p : A -> bool) (pre : list A) (x : A) :
  all_but_last p (app pre [x]) = forallb p pre.
Proof.
  induction pre as [|y pre IH]; simpl; auto.
  rewrite IH. destruct pre; simpl; auto.
Qed.

Lemma take_while_idem (p : ascii -> bool) (s : string) :
  fst (take_while p (fst (take_while p s))) = fst (take_while p s).
Proof.
  induction s as [|c s IH]; simpl; auto.
  destruct (p c) eqn:E; simpl; auto.
  destruct (take_while p s) as [a r] eqn:Es; simpl in *.
  rewrite E. destruct (take_while p a); simpl in *. congruence.
Qed.

Lemma pmap_Ok {A B} (g : A -> B) (p : parser A) i r y :
  pmap g p i = Ok r y -> exists x, p i = Ok r x /\ y = g x.
Proof.
  unfold pmap. destruct (p i); try discriminate.
  intros H. injection H as <- <-. eauto.
Qed.

Lemma tuple2_Ok {A B} (p : parser A) (q : parser B) i r ab :
  tuple2 p q i = Ok r ab ->
  exists r1 a b, p i = Ok r1 a /\ q r1 = Ok r b /\ ab = (a, b).
Proof.
  unfold tuple2. destruct (p i) as [r1 a| |] eqn:E1; try discriminate.
  destruct (q r1) as [r2 b| |] eqn:E2; try discriminate.
  intros H. injection H as <- <-. eauto 7.
Qed.

Lemma terminated_Ok {A B} (p : parser A) (q : parser B) i r a :
  terminated p q i = Ok r a -> exists r1 b, p i = Ok r1 a /\ q r1 = Ok r b.
Proof.
  unfold terminated. intros H. apply pmap_Ok in H as ([a' b] & H & ->).
  apply tuple2_Ok in H as (r1 & a1 & b1 & H1 & H2 & E).
  injection E as -> ->. eauto.
Qed.

Lemma alphanumeric1_Ok i r a : alphanumeric1 i = Ok r a -> is_ident a = true.
Proof.
  unfold alphanumeric1. pose proof (take_while_idem is_alphanum i) as Hi.
  destruct (take_while is_alphanum i) as [x y]; simpl in *.
  destruct x as [|c x]; [discriminate|].
  intros H. injection H as <- <-. unfold is_ident.
  rewrite Hi, String.eqb_refl. reflexivity.
Qed.

Lemma multispace0_Ok i r w : multispace0 i = Ok r w -> r = strip_ws i.
Proof.
  unfold multispace0, strip_ws. destruct (take_while is_multispace i).
  intros H. injection H as <- _. reflexivity.
Qed.

Lemma multispace1_Ok i r w :
  multispace1 i = Ok r w -> starts_with is_multispace i = true.
Proof.
  unfold multispace1. destruct i as [|c i]; simpl; [discriminate|].
  destruct (is_multispace c); auto. intros H; discriminate.
Qed.

Lemma block_Ok (p : parser (list Binding)) i r o :
  block p i = Ok r o ->
  (o = None /\ r = i) \/
  exists cs i1 i2 w, o = Some cs /\ p i1 = Ok i2 cs /\ r = strip_ws w.
Proof.
  unfold block, opt.
  destruct (delimited _ p _ i) as [r1 cs| |] eqn:E; try discriminate;
    intros H; injection H as <- <-; auto.
  right. unfold delimited in E. apply pmap_Ok in E as ([[x c] y] & E & ->).
  apply tuple2_Ok in E as (r2 & [x' c'] & y' & E1 & E2 & Ee).
  injection Ee as -> -> ->.
  apply tuple2_Ok in E1 as (r3 & x1 & c1 & _ & E3 & Ee).
  injection Ee as -> ->.
  apply terminated_Ok in E2 as (r4 & w & _ & E4).
  apply multispace0_Ok in E4. eauto 8.
Qed.

(** Every parse result has the canonical shape; a value never leaves
    whitespace at the start of the remaining input, and neither does a
    binding that has at least one value. *)
Lemma parse_canon (n : nat) :
  (forall j r b, parse_binding_f n j = Ok r b ->
     canon_binding b = true /\
     (binding_values b <> [] -> starts_with is_multispace r = false)) /\
  (forall j r v, parse_value_f n j = Ok r v ->
     canon_value v = true /\ starts_with is_multispace r = false).
Proof.
  induction n as [|n [IHb IHv]]; [split; intros; discriminate|].
  split; intros j r x H.
  - rewrite parse_binding_f_S in H.
    apply pmap_Ok in H as ([name vs] & H & ->).
    apply tuple2_Ok in H as (r1 & name' & vs' & H1 & H2 & E).
    injection E as -> ->.
    apply terminated_Ok in H1 as (r0 & _ & H1 & _).
    apply alphanumeric1_Ok in H1. simpl. rewrite H1. simpl.
    apply separated_list_outputs in H2
      as [[-> ->] | (pre & x & -> & [j' Hj'] & Hp & _)].
    + split; auto. intros C; now destruct C.
    + split.
      * apply forallb_forall. rewrite Forall_forall in Hp.
        intros v Hv. destruct (Hp v Hv) as (j1 & r2 & Hv1).
        apply (IHv _ _ _ Hv1).
      * intros _. apply (IHv _ _ _ Hj').
  - rewrite parse_value_f_S in H.
    apply pmap_Ok in H as ([t o] & H & ->).
    apply tuple2_Ok in H as (r1 & t' & o' & H1 & H2 & E).
    injection E as -> ->.
    apply terminated_Ok in H1 as (r0 & w & Ha & Hm).
    apply alphanumeric1_Ok in Ha. apply multispace0_Ok in Hm.
    apply block_Ok in H2 as [[-> ->] | (cs & i1 & i2 & w' & -> & Hl & ->)].
    + simpl. rewrite Ha. subst r1. split; [reflexivity|apply strip_ws_stop].
    + split; [|apply strip_ws_stop].
      simpl. rewrite Ha. simpl.
      apply separated_list_outputs in Hl
        as [[-> _] | (pre & x & -> & _ & Hp & Hq)]; [reflexivity|].
      apply andb_true_iff. split.
      * apply forallb_forall. rewrite Forall_forall in Hp.
        intros b Hb. destruct (Hp b Hb) as (j1 & r2 & Hb1).
        apply (IHb _ _ _ Hb1).
      * rewrite all_but_last_app. apply forallb_forall.
        rewrite Forall_forall in Hq. intros b Hb.
        destruct (Hq b Hb) as (j1 & r2 & r3 & u & Hb1 & Hs).
        apply multispace1_Ok in Hs.
        destruct (IHb _ _ _ Hb1) as [_ Hw].
        unfold no_values. destruct (binding_values b); auto.
        rewrite Hw in Hs; [discriminate|congruence].
Qed.

(** ** Running the combinators forward *)

Lemma pmap_Ok_eq {A B} (g : A -> B) (p : parser A) i r x :
  p i = Ok r x -> pmap g p i = Ok r (g x).
Proof. unfold pmap. intros ->. reflexivity. Qed.

Lemma pmap_Error_eq {A B} (g : A -> B) (p : parser A) i e :
  p i = Error e -> pmap g p i = Error e.
Proof. unfold pmap. intros ->. reflexivity. Qed.

Lemma tuple2_Ok_eq {A B} (p : parser A) (q : parser B) i r1 r a b :
  p i = Ok r1 a -> q r1 = Ok r b -> tuple2 p q i = Ok r (a, b).
Proof. unfold tuple2. intros -> ->. reflexivity. Qed.

Lemma tuple2_Error_eq {A B} (p : parser A) (q : parser B) i e :
  p i = Error e -> tuple2 p q i = Error e.
Proof. unfold tuple2. intros ->. reflexivity. Qed.

Lemma terminated_Ok_eq {A B} (p : parser A) (q : parser B) i r1 r a b :
  p i = Ok r1 a -> q r1 = Ok r b -> terminated p q i = Ok r a.
Proof.
  intros H1 H2. unfold terminated.
  rewrite (pmap_Ok_eq _ _ _ _ _ (tuple2_Ok_eq _ _ _ _ _ _ _ H1 H2)). reflexivity.
Qed.

Lemma terminated_Error_eq {A B} (p : parser A) (q : parser B) i e :
  p i = Error e -> terminated p q i = Error e.
Proof.
  intros H. unfold terminated. apply pmap_Error_eq, tuple2_Error_eq, H.
Qed.

Lemma multispace0_eq (s : string) : exists w, multispace0 s = Ok (strip_ws s) w.
Proof. apply multispace0_strip. Qed.

Lemma terminated_ms0_eq {A} (p : parser A) i r a :
  p i = Ok r a -> terminated p multispace0 i = Ok (strip_ws r) a.
Proof.
  intros H. destruct (multispace0_eq r) as [w Hw].
  eapply terminated_Ok_eq; eauto.
Qed.

(** The identifier followed by [=] that starts a binding. *)
Lemma name_eq_run (name rest : string) :
  is_ident name = true ->
  terminated alphanumeric1 (tag "=") (name ++ "=" ++ rest) = Ok rest name.
Proof.
  intros H. eapply terminated_Ok_eq.
  - apply alphanumeric1_run; [exact H|reflexivity].
  - apply tag_app.
Qed.

Lemma comma_sep_fail (s : string) :
  starts_with (fun c => Ascii.eqb c ",") s = false -> comma_sep s = Error s.
Proof. intros H. apply terminated_Error_eq, tag_fail, H. Qed.

Lemma comma_sep_run (s : string) : comma_sep ("," ++ s) = Ok (strip_ws s) ",".
Proof. apply terminated_ms0_eq, tag_app. Qed.

Lemma strip_ws_length (s : string) :
  String.length (strip_ws s) <= String.length s.
Proof. apply suffix_length, take_while_suffix. Qed.

Lemma eqb_longer (a s : string) :
  a <> "" -> String.eqb s (a ++ s) = false.
Proof.
  intros Ha. apply String.eqb_neq. intros E.
  apply (f_equal String.length) in E. rewrite length_append in E.
  destruct a; [congruence|simpl in E; lia].
Qed.

Lemma eqb_shorter (r s : string) :
  String.length r < String.length s -> String.eqb r s = false.
Proof. intros H. apply String.eqb_neq. intros ->. lia. Qed.

Lemma concat_cons_app (sep x : string) (xs : list string) (s : string) :
  String.concat sep (x :: xs) ++ s = x ++ sep_prefixed sep xs s.
Proof.
  revert x. induction xs as [|y xs IH]; intros x; simpl; auto.
  rewrite <- IH. simpl. rewrite !append_assoc. reflexivity.
Qed.

Lemma in_list_max {A} (h : A -> nat) (x : A) (l : list A) :
  In x l -> h x <= list_max (map h l).
Proof.
  induction l as [|y l IH]; simpl; [tauto|].
  intros [->|H]; [lia|]. specialize (IH H). lia.
Qed.

Section SeparatedListEqs.
Context {A B : Type} (sep : parser B) (f : parser A).

Lemma separated_list_empty_eq i e :
  f i = Error e -> separated_list sep f i = Ok i [].
Proof. unfold separated_list. intros ->. reflexivity. Qed.

Lemma separated_list_first_eq i i1 o :
  f i = Ok i1 o -> String.eqb i1 i = false ->
  separated_list sep f i = separated_list_loop sep f (S (String.length i1)) i1 [o].
Proof. unfold separated_list. intros -> ->. reflexivity. Qed.

Lemma separated_list_loop_stop_eq m i res e :
  sep i = Error e -> separated_list_loop sep f (S m) i res = Ok i res.
Proof. simpl. intros ->. reflexivity. Qed.

Lemma separated_list_loop_step_eq m i res i1 u i2 o :
  sep i = Ok i1 u -> String.eqb i1 i = false ->
  f i1 = Ok i2 o -> String.eqb i2 i = false ->
  separated_list_loop sep f (S m) i res =
  separated_list_loop sep f m i2 (app res [o]).
Proof. simpl. intros -> -> -> ->. reflexivity. Qed.

End SeparatedListEqs.

(** ** Printing then parsing *)

Lemma print_value_starts (v : Value) (s : string) :
  canon_value v = true -> starts_with is_alphanum (print_value v ++ s) = true.
Proof.
  destruct v as [t cs]. simpl. intros H.
  apply andb_true_iff in H as [H _]. apply andb_true_iff in H as [H _].
  rewrite append_assoc. apply is_ident_starts, H.
Qed.

Lemma print_binding_starts (b : Binding) (s : string) :
  canon_binding b = true -> starts_with is_alphanum (print_binding b ++ s) = true.
Proof.
  destruct b as [n vs]. simpl. intros H.
  apply andb_true_iff in H as [H _].
  rewrite append_assoc. apply is_ident_starts, H.
Qed.

Lemma starts_nonempty (p : ascii -> bool) (a s : string) :
  starts_with p (a ++ s) = true -> starts_with p s = false -> a <> "".
Proof. intros H1 H2 ->. simpl in H1. congruence. Qed.

Lemma nonempty_length (a : string) : a <> "" -> 1 <= String.length a.
Proof. destruct a; [congruence|simpl; lia]. Qed.

Lemma binding_rest_nows (b : Binding) (s : string) :
  starts_with is_multispace s = false -> binding_rest b s = s.
Proof.
  intros H. unfold binding_rest. destruct (binding_values b); auto.
  apply strip_ws_nows, H.
Qed.

(** The comma-separated values of a printed binding. *)
Lemma values_loop (n : nat) (s : string) :
  follows_binding s ->
  forall vs res m,
  Forall (fun v => canon_value v = true /\
            forall s', follows_value s' ->
            parse_value_f n (print_value v ++ s') = Ok (strip_ws s') v) vs ->
  String.length (strip_ws (sep_prefixed "," (map print_value vs) s)) < m ->
  separated_list_loop comma_sep (parse_value_f n) m
    (strip_ws (sep_prefixed "," (map print_value vs) s)) res
  = Ok (strip_ws s) (app res vs).
Proof.
  intros [[Hs1 Hs2] Hs3]. induction vs as [|v vs IH]; intros res m Hvs Hm.
  - destruct m as [|m]; [lia|]. simpl. rewrite app_nil_r.
    apply separated_list_loop_stop_eq with (e := strip_ws s).
    apply comma_sep_fail, Hs3.
  - inversion Hvs as [|? ? [Hc Hp] Hvs']; subst.
    destruct m as [|m]; [lia|].
    set (T := sep_prefixed "," (map print_value vs) s) in *.
    assert (ET : sep_prefixed "," (map print_value (v :: vs)) s
                 = "," ++ (print_value v ++ T)) by reflexivity.
    rewrite ET in Hm |- *.
    rewrite strip_ws_nows in Hm |- * by reflexivity.
    assert (Hst : starts_with is_multispace (print_value v ++ T) = false)
      by apply starts_alnum_not_ws, print_value_starts, Hc.
    assert (Hfv : follows_value T).
    { destruct vs as [|v' vs'].
      - split; auto.
      - unfold T. simpl. split; [reflexivity|]. rewrite strip_ws_nows; reflexivity. }
    assert (Hne : print_value v <> "").
    { intros E. pose proof (print_value_starts v "" Hc). rewrite E in H. discriminate. }
    rewrite separated_list_loop_step_eq
      with (i1 := print_value v ++ T) (u := ",") (i2 := strip_ws T) (o := v).
    + replace (app res (v :: vs)) with (app (app res [v]) vs)
        by (rewrite <- app_assoc; reflexivity).
      apply IH; auto.
      pose proof (strip_ws_length T). pose proof (nonempty_length _ Hne).
      simpl in Hm. rewrite length_append in Hm. lia.
    + rewrite comma_sep_run, strip_ws_nows; auto.
    + apply eqb_shorter. simpl. lia.
    + apply Hp, Hfv.
    + apply eqb_shorter. pose proof (strip_ws_length T).
      pose proof (nonempty_length _ Hne). simpl. rewrite length_append. lia.
Qed.

Lemma strip_ws_space (s : string) : strip_ws (" " ++ s) = strip_ws s.
Proof.
  unfold strip_ws. simpl. destruct (take_while is_multispace s). reflexivity.
Qed.

Lemma alnum_not_punct (s : string) :
  starts_with is_alphanum s = true ->
  starts_char "{" s = false /\ starts_char "," s = false
  /\ starts_with is_multispace s = false.
Proof.
  destruct s as [|c s]; simpl; [discriminate|].
  destruct c as [[] [] [] [] [] [] [] []]; vm_compute; auto; discriminate.
Qed.

(** One binding of a printed block, followed by its siblings and [u]: the
    parse stops exactly before the separating space. *)
Lemma child_parse (n : nat) (u : string) :
  follows_binding u -> starts_with is_multispace u = false ->
  forall c cs, Forall (reparses_binding n) (c :: cs) ->
  all_but_last no_values (c :: cs) = true ->
  parse_binding_f n (print_binding c ++ sep_prefixed " " (map print_binding cs) u)
  = Ok (sep_prefixed " " (map print_binding cs) u) c
  /\ all_but_last no_values cs = true.
Proof.
  intros Hu Hw c cs Hcs Hl.
  inversion Hcs as [|? ? [Hc Hp] Hcs']; subst.
  set (T := sep_prefixed " " (map print_binding cs) u).
  assert (Hfb : follows_binding T /\ binding_rest c T = T
                /\ all_but_last no_values cs = true).
  { destruct cs as [|c' cs'].
    - unfold T. simpl. auto using binding_rest_nows.
    - simpl in Hl. apply andb_true_iff in Hl as [Hn Hl].
      inversion Hcs' as [|? ? [Hc' _] _]; subst.
      pose proof (print_binding_starts c' (sep_prefixed " " (map print_binding cs') u) Hc')
        as Hs'.
      assert (ET' : T = " " ++ (print_binding c' ++
                        sep_prefixed " " (map print_binding cs') u)) by reflexivity.
      destruct (alnum_not_punct _ Hs') as (H1 & H2 & H3).
      split; [split; [split|]|split].
      + rewrite ET'. reflexivity.
      + rewrite ET', strip_ws_space, strip_ws_nows; auto.
      + rewrite ET', strip_ws_space, strip_ws_nows; auto.
      + unfold binding_rest. unfold no_values in Hn.
        destruct (binding_values c); [reflexivity|discriminate].
      + exact Hl. }
  destruct Hfb as (Hfb & Hr & Hl').
  split; auto. rewrite <- Hr at 2. apply Hp, Hfb.
Qed.

(** The whitespace-separated bindings of a printed block after the first
    one, followed by [u] (the closing brace and what comes after it). *)
Lemma children_loop (n : nat) (u : string) :
  follows_binding u -> starts_with is_multispace u = false ->
  forall cs res m,
  Forall (reparses_binding n) cs ->
  all_but_last no_values cs = true ->
  String.length (sep_prefixed " " (map print_binding cs) u) < m ->
  separated_list_loop multispace1 (parse_binding_f n) m
    (sep_prefixed " " (map print_binding cs) u) res = Ok u (app res cs).
Proof.
  intros Hu Hw. induction cs as [|c cs IH]; intros res m Hcs Hl Hm.
  - destruct m as [|m]; [lia|]. simpl. rewrite app_nil_r.
    apply separated_list_loop_stop_eq with (e := u).
    apply multispace1_fail, Hw.
  - destruct m as [|m]; [lia|].
    destruct (child_parse n u Hu Hw c cs Hcs Hl) as [Hp Hl'].
    inversion Hcs as [|? ? [Hc _] Hcs']; subst.
    set (T := sep_prefixed " " (map print_binding cs) u) in *.
    assert (ET : sep_prefixed " " (map print_binding (c :: cs)) u
                 = " " ++ (print_binding c ++ T)) by reflexivity.
    rewrite ET in Hm |- *.
    assert (Hst : starts_with is_alphanum (print_binding c ++ T) = true)
      by apply print_binding_starts, Hc.
    assert (Hne : print_binding c <> "").
    { intros E. pose proof (print_binding_starts c "" Hc). rewrite E in H. discriminate. }
    pose proof (nonempty_length _ Hne) as Hlen.
    rewrite separated_list_loop_step_eq
      with (i1 := print_binding c ++ T) (u := " ") (i2 := T) (o := c).
    + replace (app res (c :: cs)) with (app (app res [c]) cs)
        by (rewrite <- app_assoc; reflexivity).
      apply IH; auto.
      simpl in Hm. rewrite length_append in Hm. lia.
    + apply multispace1_space, starts_alnum_not_ws, Hst.
    + apply eqb_shorter. simpl. lia.
    + exact Hp.
    + apply eqb_shorter. simpl. rewrite length_append. lia.
Qed.

Lemma delimited_Ok_eq {A B C} (p : parser A) (q : parser B) (r : parser C)
    i r1 r2 r3 a b c :
  p i = Ok r1 a -> q r1 = Ok r2 b -> r r2 = Ok r3 c ->
  delimited p q r i = Ok r3 b.
Proof.
  intros H1 H2 H3. unfold delimited.
  rewrite (pmap_Ok_eq _ _ _ _ _
             (tuple2_Ok_eq _ _ _ _ _ _ _ (tuple2_Ok_eq _ _ _ _ _ _ _ H1 H2) H3)).
  reflexivity.
Qed.

Lemma parse_value_f_fail (n : nat) (s : string) :
  1 <= n -> starts_with is_alphanum s = false -> parse_value_f n s = Error s.
Proof.
  intros Hn Hs. destruct n as [|n]; [lia|]. rewrite parse_value_f_S.
  apply pmap_Error_eq, tuple2_Error_eq, terminated_Error_eq, alphanumeric1_fail, Hs.
Qed.

(** Parsing a printed tree of canonical shape, with enough fuel, gives the
    tree back and stops where the printed text ends (after the whitespace
    that follows a value). *)
Lemma print_parse_gen :
  (forall b, canon_binding b = true -> forall n, height_binding b < n ->
     reparses_binding n b) /\
  (forall v, canon_value v = true -> forall n, height_value v < n ->
     reparses_value n v).
Proof.
  set (PB := fun b => canon_binding b = true -> forall n, height_binding b < n ->
                      reparses_binding n b).
  set (PV := fun v => canon_value v = true -> forall n, height_value v < n ->
                      reparses_value n v).
  assert (HB : forall name vs, Forall PV vs -> PB (mkBinding name vs)).
  { intros name vs Hvs Hc n Hn. split; [exact Hc|]. intros s Hs.
    simpl in Hc. apply andb_true_iff in Hc as [Hname Hvc].
    rewrite forallb_forall in Hvc. rewrite Forall_forall in Hvs.
    destruct n as [|n]; [simpl in Hn; lia|]. rewrite parse_binding_f_S.
    assert (Hheight : forall v, In v vs -> height_value v < n).
    { intros v Hv. pose proof (in_list_max height_value v vs Hv). simpl in Hn. lia. }
    assert (Hre : forall v, In v vs -> reparses_value n v).
    { intros v Hv. apply Hvs; auto. }
    change (print_binding (mkBinding name vs))
      with (name ++ "=" ++ String.concat "," (map print_value vs)).
    rewrite !append_assoc.
    assert (HQ : separated_list comma_sep (parse_value_f n)
                   (String.concat "," (map print_value vs) ++ s)
                 = Ok (binding_rest (mkBinding name vs) s) vs).
    { destruct vs as [|v vs'].
      - apply separated_list_empty_eq with (e := s).
        apply parse_value_f_fail; [simpl in Hn; lia|apply Hs].
      - cbn [map]. rewrite concat_cons_app.
        set (T := sep_prefixed "," (map print_value vs') s).
        destruct (Hre v (or_introl eq_refl)) as [Hcv Hpv].
        assert (Hfv : follows_value T).
        { destruct vs' as [|v' vs''].
          - apply Hs.
          - unfold T. simpl. split; [reflexivity|].
            rewrite strip_ws_nows; reflexivity. }
        assert (Hne : print_value v <> "").
        { intros E. pose proof (print_value_starts v "" Hcv). rewrite E in H.
          discriminate. }
        pose proof (nonempty_length _ Hne) as Hlen.
        pose proof (strip_ws_length T) as HT.
        rewrite (separated_list_first_eq _ _ _ _ _ (Hpv T Hfv)).
        + apply (values_loop n s Hs vs' [v]).
          * apply Forall_forall. intros x Hx. apply Hre. right. exact Hx.
          * unfold T in *. lia.
        + apply eqb_shorter. rewrite length_append. lia. }
    assert (HT : tuple2 (terminated alphanumeric1 (tag "="))
                   (separated_list comma_sep (parse_value_f n))
                   (name ++ "=" ++ String.concat "," (map print_value vs) ++ s)
                 = Ok (binding_rest (mkBinding name vs) s) (name, vs)).
    { eapply tuple2_Ok_eq; [apply name_eq_run, Hname|exact HQ]. }
    rewrite (pmap_Ok_eq _ _ _ _ _ HT). reflexivity. }
  assert (HV : forall t cs, Forall PB cs -> PV (mkValue t cs)).
  { intros t cs Hcs Hc n Hn. split; [exact Hc|]. intros s [Hs1 Hs2].
    simpl in Hc. apply andb_true_iff in Hc as [Hc Hl].
    apply andb_true_iff in Hc as [Ht Hcc].
    rewrite forallb_forall in Hcc. rewrite Forall_forall in Hcs.
    destruct n as [|n]; [simpl in Hn; lia|]. rewrite parse_value_f_S.
    assert (Hre : forall c, In c cs -> reparses_binding n c).
    { intros c Hc. apply Hcs; auto.
      pose proof (in_list_max height_binding c cs Hc). simpl in Hn. lia. }
    destruct cs as [|c cs'].
    - change (print_value (mkValue t [])) with (t ++ "").
      rewrite append_empty_r.
      assert (HT : tuple2 (terminated alphanumeric1 multispace0)
                     (block (separated_list multispace1 (parse_binding_f n)))
                     (t ++ s) = Ok (strip_ws s) (t, None)).
      { eapply tuple2_Ok_eq.
        - apply terminated_ms0_eq, alphanumeric1_run; auto.
        - unfold block, opt. unfold delimited.
          rewrite pmap_Error_eq with (e := strip_ws s); [reflexivity|].
          apply tuple2_Error_eq, tuple2_Error_eq, terminated_Error_eq, tag_fail, Hs2. }
      rewrite (pmap_Ok_eq _ _ _ _ _ HT). reflexivity.
    - set (u := "}" ++ s).
      assert (Hu : follows_binding u) by (repeat split; reflexivity).
      assert (Hw : starts_with is_multispace u = false) by reflexivity.
      set (T := sep_prefixed " " (map print_binding cs') u).
      assert (Eprint : print_value (mkValue t (c :: cs')) ++ s
                       = t ++ ("{" ++ (print_binding c ++ T))).
      { change (print_value (mkValue t (c :: cs'))) with
          (t ++ ("{" ++ (String.concat " " (map print_binding (c :: cs')) ++ "}"))).
        rewrite !append_assoc. cbn [map]. rewrite concat_cons_app. reflexivity. }
      rewrite Eprint.
      assert (Hall : Forall (reparses_binding n) (c :: cs'))
        by (apply Forall_forall; exact Hre).
      destruct (child_parse n u Hu Hw c cs' Hall Hl) as [Hp Hl'].
      assert (Hc : canon_binding c = true) by (apply Hcc; left; reflexivity).
      assert (Hst : starts_with is_alphanum (print_binding c ++ T) = true)
        by apply print_binding_starts, Hc.
      assert (Hne : print_binding c <> "").
      { intros E. pose proof (print_binding_starts c "" Hc). rewrite E in H.
        discriminate. }
      pose proof (nonempty_length _ Hne) as Hlen.
      assert (HL : separated_list multispace1 (parse_binding_f n)
                     (print_binding c ++ T) = Ok u (c :: cs')).
      { rewrite (separated_list_first_eq _ _ _ _ _ Hp).
        - apply (children_loop n u Hu Hw cs' [c]); auto.
          inversion Hall; auto.
        - apply eqb_shorter. rewrite length_append. lia. }
      assert (HB' : block (separated_list multispace1 (parse_binding_f n))
                      ("{" ++ (print_binding c ++ T))
                    = Ok (strip_ws s) (Some (c :: cs'))).
      { unfold block, opt.
        erewrite delimited_Ok_eq; [reflexivity| | exact HL |].
        - rewrite <- (strip_ws_nows (print_binding c ++ T)) at 2
            by apply starts_alnum_not_ws, Hst.
          apply terminated_ms0_eq, tag_app.
        - apply terminated_ms0_eq, tag_app. }
      assert (HT : tuple2 (terminated alphanumeric1 multispace0)
                     (block (separated_list multispace1 (parse_binding_f n)))
                     (t ++ ("{" ++ (print_binding c ++ T)))
                   = Ok (strip_ws s) (t, Some (c :: cs'))).
      { eapply tuple2_Ok_eq; [|exact HB'].
        rewrite <- (strip_ws_nows ("{" ++ (print_binding c ++ T))) at 2
          by reflexivity.
        apply terminated_ms0_eq, alphanumeric1_run; auto. }
      rewrite (pmap_Ok_eq _ _ _ _ _ HT). reflexivity. }
  split; [apply (binding_ind' PB PV HB HV)|apply (value_ind' PB PV HB HV)].
Qed.

Lemma concat_length_in (sep x : string) (l : list string) :
  In x l -> String.length x <= String.length (String.concat sep l).
Proof.
  induction l as [|y l IH]; simpl; [tauto|].
  intros [->|Hx].
  - destruct l; [lia|]. rewrite length_append. lia.
  - destruct l as [|z l]; [destruct Hx|].
    specialize (IH Hx).
    change (String.length (y ++ sep ++ String.concat sep (z :: l)) >=
            String.length x).
    rewrite !length_append. lia.
Qed.

(** The fuel [S (length (print_binding b))] of the entry point exceeds the
    nesting depth of [b]. *)
Lemma height_le_length :
  (forall b, canon_binding b = true ->
     height_binding b <= String.length (print_binding b)) /\
  (forall v, canon_value v = true ->
     height_value v <= String.length (print_value v)).
Proof.
  set (PB := fun b => canon_binding b = true ->
               height_binding b <= String.length (print_binding b)).
  set (PV := fun v => canon_value v = true ->
               height_value v <= String.length (print_value v)).
  assert (HB : forall name vs, Forall PV vs -> PB (mkBinding name vs)).
  { intros name vs Hvs Hc. simpl in Hc. apply andb_true_iff in Hc as [_ Hvc].
    rewrite forallb_forall in Hvc. rewrite Forall_forall in Hvs.
    change (S (list_max (map height_value vs)) <=
            String.length (name ++ "=" ++ String.concat "," (map print_value vs))).
    rewrite !length_append. simpl.
    assert (list_max (map height_value vs) <=
            String.length (String.concat "," (map print_value vs))); [|lia].
    apply list_max_le, Forall_forall. intros k Hk.
    apply in_map_iff in Hk as (v & <- & Hv).
    pose proof (Hvs v Hv (Hvc v Hv)).
    pose proof (concat_length_in "," (print_value v) (map print_value vs)
                  (in_map _ _ _ Hv)). lia. }
  assert (HV : forall t cs, Forall PB cs -> PV (mkValue t cs)).
  { intros t cs Hcs Hc. simpl in Hc. apply andb_true_iff in Hc as [Hc _].
    apply andb_true_iff in Hc as [Ht Hcc].
    apply is_ident_run in Ht as [_ Ht]. pose proof (nonempty_length _ Ht).
    rewrite forallb_forall in Hcc. rewrite Forall_forall in Hcs.
    destruct cs as [|c cs'].
    - change (1 <= String.length (t ++ "")). rewrite append_empty_r. lia.
    - change (S (list_max (map height_binding (c :: cs'))) <=
              String.length (t ++ "{" ++ String.concat " "
                               (map print_binding (c :: cs')) ++ "}")).
      rewrite !length_append. cbn [String.length].
      assert (list_max (map height_binding (c :: cs')) <=
              String.length (String.concat " " (map print_binding (c :: cs'))));
        [|lia].
      apply list_max_le, Forall_forall. intros k Hk.
      apply in_map_iff in Hk as (b & <- & Hb).
      pose proof (Hcs b Hb (Hcc b Hb)).
      pose proof (concat_length_in " " (print_binding b) _ (in_map print_binding _ _ Hb)).
      lia. }
  split; [apply (binding_ind' PB PV HB HV)|apply (value_ind' PB PV HB HV)].
Qed.

(** Printing a tree of canonical shape and parsing it back gives the tree
    and consumes the whole text. *)
Lemma print_parse_canon (b : Binding) :
  canon_binding b = true -> parse_binding (print_binding b) = Ok "" b.
Proof.
  intros Hc. unfold parse_binding.
  pose proof (proj1 height_le_length b Hc).
  destruct (proj1 print_parse_gen b Hc (S (String.length (print_binding b))))
    as [_ Hp]; [lia|].
  specialize (Hp "" ltac:(repeat split)).
  rewrite append_empty_r in Hp. rewrite Hp.
  unfold binding_rest. destruct (binding_values b); reflexivity.
Qed.

(** ** C1: round trip *)

(** C1: for every Binding [b] returned by a successful [parse_binding],
    [parse_binding (print_binding b)] succeeds and returns [b] with no
    remaining text. *)
Theorem parse_print_roundtrip (s r : string) (b : Binding) :
  parse_binding s = Ok r b -> parse_binding (print_binding b) = Ok "" b.
Proof.
  intros H. apply print_parse_canon.
  apply (proj1 (parse_canon _) _ _ _ H).
Qed.

Lemma parse_print_roundtrip_witness :
  parse_binding "foo=bar{zoo=qat},xxx" =
    Ok "" (mkBinding "foo" [mkValue "bar" [mkBinding "zoo" [leaf "qat"]]; leaf "xxx"])
  /\ parse_binding (print_binding
       (mkBinding "foo" [mkValue "bar" [mkBinding "zoo" [leaf "qat"]]; leaf "xxx"]))
     = Ok "" (mkBinding "foo" [mkValue "bar" [mkBinding "zoo" [leaf "qat"]]; leaf "xxx"]).
Proof.
  split; [reflexivity|].
  apply (parse_print_roundtrip "foo=bar{zoo=qat},xxx" ""). reflexivity.
Defined.

(** ** C9: identifiers everywhere *)

(** C9: in every tree returned by a successful [parse_binding] or
    [parse_value], every Binding name and every Value token, at every
    depth, is a non-empty run of ASCII letters and digits. *)
Theorem parse_results_identifiers (s : string) :
  (forall r b, parse_binding s = Ok r b -> idents_binding b = true) /\
  (forall r v, parse_value s = Ok r v -> idents_value v = true).
Proof.
  split; intros r x H; apply canon_idents.
  - apply (proj1 (parse_canon _) _ _ _ H).
  - apply (proj2 (parse_canon _) _ _ _ H).
Qed.

Lemma parse_results_identifiers_witness :
  parse_value "bar{zoo=qat} x" =
    Ok "x" (mkValue "bar" [mkBinding "zoo" [leaf "qat"]])
  /\ idents_value (mkValue "bar" [mkBinding "zoo" [leaf "qat"]]) = true.
Proof.
  split; [reflexivity|].
  apply (proj2 (parse_results_identifiers "bar{zoo=qat} x") "x"). reflexivity.
Defined.

(** ** C10: [parse_binding] fails only at the name or the [=] *)

(** C10: on every input that starts with a non-empty run of ASCII letters
    and digits immediately followed by [=], [parse_binding] returns [Ok]. *)
Theorem parse_binding_ok_after_name (name rest : string) :
  is_ident name = true ->
  exists r b, parse_binding (name ++ "=" ++ rest) = Ok r b.
Proof.
  intros Hn. unfold parse_binding.
  set (L := String.length (name ++ "=" ++ rest)).
  assert (HL : String.length rest < L).
  { unfold L. apply is_ident_run in Hn as [_ Hn].
    pose proof (nonempty_length _ Hn). rewrite length_append. simpl. lia. }
  rewrite parse_binding_f_S.
  destruct (parse_suffixing L) as [_ Sv].
  destruct (parse_consuming L) as [_ Cv].
  pose proof (proj2 (parse_fuel_ok L)) as Fv.
  destruct (comma_sep_props L) as (Sc & Cc & Fc).
  destruct (separated_list_ok comma_sep (parse_value_f L) L Sc Sv Fc Fv Cc Cv
              rest HL) as (r & vs & Hl).
  exists r, (mkBinding name vs).
  assert (HT : tuple2 (terminated alphanumeric1 (tag "="))
                 (separated_list comma_sep (parse_value_f L))
                 (name ++ "=" ++ rest) = Ok r (name, vs)).
  { eapply tuple2_Ok_eq; [apply name_eq_run, Hn|exact Hl]. }
  rewrite (pmap_Ok_eq _ _ _ _ _ HT). reflexivity.
Qed.

Lemma parse_binding_ok_after_name_witness :
  is_ident "foo" = true /\
  exists r b, parse_binding ("foo" ++ "=" ++ "{}}") = Ok r b.
Proof.
  split; [reflexivity|].
  apply parse_binding_ok_after_name. reflexivity.
Defined.

Lemma tuple2_Error_r_eq {A B} (p : parser A) (q : parser B) i r1 a e :
  p i = Ok r1 a -> q r1 = Error e -> tuple2 p q i = Error e.
Proof. unfold tuple2. intros -> ->. reflexivity. Qed.

Lemma delimited_Error3_eq {A B C} (p : parser A) (q : parser B) (r : parser C)
    i r1 r2 a b e :
  p i = Ok r1 a -> q r1 = Ok r2 b -> r r2 = Error e ->
  delimited p q r i = Error e.
Proof.
  intros H1 H2 H3. unfold delimited.
  apply pmap_Error_eq.
  exact (tuple2_Error_r_eq _ _ _ _ _ _ (tuple2_Ok_eq _ _ _ _ _ _ _ H1 H2) H3).
Qed.

(** ** C2: sibling bindings inside a block *)

(** C2 (the code does not do it): inside a block, a binding whose value is
    followed by whitespace and a sibling binding is not parsed as two
    bindings.  [parse_value] of [b] swallows the space with [multispace0],
    so [multispace1] between siblings fails, the closing [}] is not found,
    [opt] drops the whole block and [parse_binding] stops before [{]. *)
Theorem parse_binding_siblings_in_block :
  parse_binding "foo=x{a=b c=d}" = Ok "{a=b c=d}" (mkBinding "foo" [leaf "x"]).
Proof. reflexivity. Qed.

(** ** C3: print, parse, print *)

(** C3 (the code does not do it): printing the tree [two_siblings] gives
    ["foo=x{a=b c=d}"]; parsing that text stops before the block (see C2),
    so printing the parsed tree gives ["foo=x"], not the first text. *)
Theorem print_parse_print_two_siblings :
  print_binding two_siblings = "foo=x{a=b c=d}" /\
  (exists r b, parse_binding (print_binding two_siblings) = Ok r b /\
               print_binding b = "foo=x") /\
  print_binding (match parse_binding (print_binding two_siblings) with
                 | Ok _ b => b
                 | _ => two_siblings
                 end) <> print_binding two_siblings.
Proof.
  split; [reflexivity|]. split.
  - exists "{a=b c=d}", (mkBinding "foo" [leaf "x"]). split; reflexivity.
  - vm_compute. discriminate.
Qed.

(** On trees of canonical shape (see [canon_binding]), in particular on
    every tree the parser returns, printing is a fixed point of parsing. *)
Lemma print_parse_print_canon (b : Binding) :
  canon_binding b = true ->
  exists r b', parse_binding (print_binding b) = Ok r b' /\
               print_binding b' = print_binding b.
Proof.
  intros Hc. exists "", b. split; auto. apply print_parse_canon, Hc.
Qed.

(** ** C4: a binding without values *)

(** C4 (counterexample): ["foo="] parses to a Binding with no value. *)
Lemma parse_binding_no_value_counterexample :
  exists r b, parse_binding "foo=" = Ok r b /\ binding_values b = [].
Proof. exists "", (mkBinding "foo" []). split; reflexivity. Qed.

(** C4 (amended): when the text after [name=] does not start with an ASCII
    letter or digit, [parse_binding] succeeds with an empty values list and
    leaves that text unconsumed. *)
Theorem parse_binding_empty_values (name rest : string) :
  is_ident name = true -> starts_with is_alphanum rest = false ->
  parse_binding (name ++ "=" ++ rest) = Ok rest (mkBinding name []).
Proof.
  intros Hn Hr. unfold parse_binding. rewrite parse_binding_f_S.
  assert (HL : 1 <= String.length (name ++ "=" ++ rest))
    by (rewrite length_append; simpl; lia).
  assert (HT : tuple2 (terminated alphanumeric1 (tag "="))
                 (separated_list comma_sep
                    (parse_value_f (String.length (name ++ "=" ++ rest))))
                 (name ++ "=" ++ rest) = Ok rest (name, [])).
  { eapply tuple2_Ok_eq; [apply name_eq_run, Hn|].
    apply separated_list_empty_eq with (e := rest).
    apply parse_value_f_fail; assumption. }
  rewrite (pmap_Ok_eq _ _ _ _ _ HT). reflexivity.
Qed.

Lemma parse_binding_empty_values_witness :
  is_ident "foo" = true /\ starts_with is_alphanum "" = false /\
  parse_binding ("foo" ++ "=" ++ "") = Ok "" (mkBinding "foo" []).
Proof.
  split; [reflexivity|]. split; [reflexivity|].
  apply parse_binding_empty_values; reflexivity.
Defined.

(** ** C5: unterminated block *)

(** C5 (counterexample): an unterminated block is not a parse error. *)
Lemma parse_binding_unterminated_counterexample :
  parse_binding "foo=bar{zoo=qat" = Ok "{zoo=qat" (mkBinding "foo" [leaf "bar"]).
Proof. reflexivity. Qed.

(** ** C7: whitespace around a block *)

(** C7: the three spellings parse to the same Binding, consuming the whole
    text, and that Binding prints as ["foo=bar{zoo=qat}"]. *)
Theorem whitespace_insensitive_block :
  parse_binding "foo=bar{zoo=qat}"
    = Ok "" (mkBinding "foo" [mkValue "bar" [mkBinding "zoo" [leaf "qat"]]]) /\
  parse_binding "foo=bar{ zoo=qat}"
    = Ok "" (mkBinding "foo" [mkValue "bar" [mkBinding "zoo" [leaf "qat"]]]) /\
  parse_binding "foo=bar { zoo=qat }"
    = Ok "" (mkBinding "foo" [mkValue "bar" [mkBinding "zoo" [leaf "qat"]]]) /\
  print_binding (mkBinding "foo" [mkValue "bar" [mkBinding "zoo" [leaf "qat"]]])
    = "foo=bar{zoo=qat}".
Proof. repeat split; reflexivity. Qed.

(** ** C8: the empty block *)

(** C8: ["foo=bar{}"] parses to the same Binding as ["foo=bar"] (a value
    with no children), and [print_value] prints a value without children
    as its token alone, with no block. *)
Theorem empty_block_equivalent :
  parse_binding "foo=bar{}" = parse_binding "foo=bar" /\
  parse_binding "foo=bar" = Ok "" (mkBinding "foo" [mkValue "bar" []]) /\
  (forall value, print_value (mkValue value []) = value).
Proof.
  split; [reflexivity|]. split; [reflexivity|].
  intros value. simpl. apply append_empty_r.
Qed.

Example parse_foo_bar :
  parse_binding "foo=bar" = Ok "" (mkBinding "foo" [leaf "bar"]).
Proof. reflexivity. Qed.

Example parse_nested :
  parse_binding "a=b{c=d{e=f}},k{l=m{n=o}}" =
  Ok "" (mkBinding "a"
          [mkValue "b" [mkBinding "c" [mkValue "d" [mkBinding "e" [leaf "f"]]]];
           mkValue "k" [mkBinding "l" [mkValue "m" [mkBinding "n" [leaf "o"]]]]]).
Proof. reflexivity. Qed.

Example parse_spaces :
  parse_binding "foo=bar{zoo=qat} , xxx{aaa=bbb}" =
  Ok "" (mkBinding "foo" [mkValue "bar" [mkBinding "zoo" [leaf "qat"]];
                          mkValue "xxx" [mkBinding "aaa" [leaf "bbb"]]]).
Proof. reflexivity. Qed.

Example print_nested :
  print_binding (mkBinding "foo" [mkValue "bar" [mkBinding "zoo" [leaf "qat"]];
                          mkValue "xxx" [mkBinding "aaa" [leaf "bbb"]]])
  = "foo=bar{zoo=qat},xxx{aaa=bbb}".
Proof. reflexivity. Qed.

(** ** Further properties of the parsers and printers *)

(** *** The combinators, read backwards *)

Lemma take_while_empty (p : ascii -> bool) (s : string) :
  fst (take_while p s) = "" -> starts_with p s = false.
Proof.
  destruct s as [|c s]; simpl; auto.
  destruct (p c); auto. destruct (take_while p s). discriminate.
Qed.

(** [alphanumeric1] takes the maximal run of letters and digits. *)
Lemma alphanumeric1_Ok_split (i r a : string) :
  alphanumeric1 i = Ok r a ->
  i = a ++ r /\ is_ident a = true /\ starts_with is_alphanum r = false.
Proof.
  intros H. pose proof (alphanumeric1_Ok _ _ _ H) as Hid.
  revert H. unfold alphanumeric1.
  pose proof (take_while_app is_alphanum i) as Happ.
  pose proof (take_while_stop is_alphanum i) as Hstop.
  destruct (take_while is_alphanum i) as [x y]; simpl in *.
  destruct x as [|c x]; [discriminate|].
  intros H. injection H as <- <-. auto.
Qed.

Lemma alphanumeric1_Error (i e : string) :
  alphanumeric1 i = Error e -> e = i /\ starts_with is_alphanum i = false.
Proof.
  unfold alphanumeric1. pose proof (take_while_empty is_alphanum i) as He.
  destruct (take_while is_alphanum i) as [x y]; simpl in *.
  destruct x as [|c x]; [|discriminate].
  intros H. injection H as <-. auto.
Qed.

Lemma alphanumeric1_not_fuel (i : string) : alphanumeric1 i <> OutOfFuel.
Proof.
  unfold alphanumeric1. destruct (take_while is_alphanum i) as [[|c x] y];
    discriminate.
Qed.

Lemma alphanumeric1_start (i : string) :
  starts_with is_alphanum i = true -> exists r a, alphanumeric1 i = Ok r a.
Proof.
  destruct i as [|c i]; simpl; [discriminate|]. intros Hc.
  unfold alphanumeric1. simpl. rewrite Hc.
  destruct (take_while is_alphanum i). eauto.
Qed.

Lemma tag_Ok (t i r a : string) : tag t i = Ok r a -> i = t ++ r /\ a = t.
Proof.
  unfold tag. destruct (String.prefix t i) eqn:E; [|discriminate].
  intros H. injection H as <- <-. split; auto. apply prefix_split, E.
Qed.

(** A one-character [tag] fails only where its character is missing. *)
Lemma tag_Error (c : ascii) (i e : string) :
  tag (String c "") i = Error e ->
  e = i /\ starts_with (fun x => Ascii.eqb x c) i = false.
Proof.
  intros H. destruct (starts_with (fun x => Ascii.eqb x c) i) eqn:E.
  - destruct i as [|d i]; simpl in E; [discriminate|].
    apply Ascii.eqb_eq in E. subst d.
    change (String c i) with (String c "" ++ i) in H.
    rewrite tag_app in H. discriminate.
  - rewrite tag_fail in H by exact E. injection H as <-. auto.
Qed.

Lemma tag_not_fuel (t i : string) : tag t i <> OutOfFuel.
Proof. unfold tag. destruct (String.prefix t i); discriminate. Qed.

(** *** [parse_binding] on a name followed by [=] *)

(** Whatever follows [name=], [parse_binding] returns a binding named
    [name]. *)
Lemma parse_binding_name_ok (name rest : string) :
  is_ident name = true ->
  exists r vs, parse_binding (name ++ "=" ++ rest) = Ok r (mkBinding name vs).
Proof.
  intros Hn. unfold parse_binding.
  set (L := String.length (name ++ "=" ++ rest)).
  assert (HL : String.length rest < L).
  { unfold L. apply is_ident_run in Hn as [_ Hn].
    pose proof (nonempty_length _ Hn). rewrite length_append. simpl. lia. }
  rewrite parse_binding_f_S.
  destruct (parse_suffixing L) as [_ Sv].
  destruct (parse_consuming L) as [_ Cv].
  pose proof (proj2 (parse_fuel_ok L)) as Fv.
  destruct (comma_sep_props L) as (Sc & Cc & Fc).
  destruct (separated_list_ok comma_sep (parse_value_f L) L Sc Sv Fc Fv Cc Cv
              rest HL) as (r & vs & Hl).
  exists r, vs.
  assert (HT : tuple2 (terminated alphanumeric1 (tag "="))
                 (separated_list comma_sep (parse_value_f L))
                 (name ++ "=" ++ rest) = Ok r (name, vs)).
  { eapply tuple2_Ok_eq; [apply name_eq_run, Hn|exact Hl]. }
  rewrite (pmap_Ok_eq _ _ _ _ _ HT). reflexivity.
Qed.

(** A successful [parse_binding] read its name and an [=] from the input,
    then returned a suffix of what follows the [=]. *)
Lemma parse_binding_f_Ok_shape (n : nat) (s r : string) (b : Binding) :
  parse_binding_f n s = Ok r b ->
  exists mid, is_ident (binding_name b) = true /\
    s = binding_name b ++ "=" ++ mid /\ suffix r mid.
Proof.
  destruct n as [|n]; [discriminate|]. rewrite parse_binding_f_S.
  intros H. apply pmap_Ok in H as ([name vs] & H & ->).
  apply tuple2_Ok in H as (r1 & name' & vs' & H1 & H2 & E).
  injection E as -> ->.
  apply terminated_Ok in H1 as (r0 & u & Ha & Ht).
  apply alphanumeric1_Ok_split in Ha as (-> & Hid & _).
  apply tag_Ok in Ht as [-> _].
  exists r1. simpl. split; [exact Hid|split; [reflexivity|]].
  destruct (parse_suffixing n) as [_ Sv].
  destruct (comma_sep_props 0) as (Sc & _).
  exact (separated_list_suffixing comma_sep (parse_value_f n) Sc Sv _ _ _ H2).
Qed.

(** *** Printing then parsing values *)

Lemma print_parse_canon_value (v : Value) :
  canon_value v = true -> parse_value (print_value v) = Ok "" v.
Proof.
  intros Hc. unfold parse_value.
  pose proof (proj2 height_le_length v Hc).
  destruct (proj2 print_parse_gen v Hc (S (String.length (print_value v))))
    as [_ Hp]; [lia|].
  specialize (Hp "" ltac:(split; reflexivity)).
  rewrite append_empty_r in Hp. exact Hp.
Qed.

(** *** Printed text is never longer than the parsed text *)

Section SeparatedListLength.
Context {A B : Type} (sep : parser B) (f : parser A).
Variables (pr : A -> string) (sepstr : string).
Hypothesis Hsep : forall i i' u, sep i = Ok i' u ->
  String.length sepstr + String.length i' <= String.length i.
Hypothesis Hf : forall i r x, f i = Ok r x ->
  String.length (pr x) + String.length r <= String.length i.

Lemma sep_prefixed_length (ys : list string) (s : string) :
  String.length (sep_prefixed sepstr ys s)
  = fold_right (fun y acc => String.length sepstr + String.length y + acc)
      (String.length s) ys.
Proof.
  induction ys as [|y ys IH]; simpl; auto.
  rewrite !length_append, IH. lia.
Qed.

Lemma separated_list_loop_length :
  forall n i res r xs, separated_list_loop sep f n i res = Ok r xs ->
  exists ys, xs = app res ys /\
    String.length (sep_prefixed sepstr (map pr ys) "") + String.length r
    <= String.length i.
Proof.
  induction n as [|n IH]; intros i res r xs; simpl; [discriminate|].
  destruct (sep i) as [i1 u| |] eqn:Es.
  - destruct (String.eqb i1 i); [discriminate|].
    destruct (f i1) as [i2 o| |] eqn:Ef.
    + destruct (String.eqb i2 i); [discriminate|].
      intros H. apply IH in H as (ys & -> & Hl).
      exists (o :: ys). split; [rewrite <- app_assoc; reflexivity|].
      apply Hsep in Es. apply Hf in Ef.
      cbn [map sep_prefixed fold_right]. fold (sep_prefixed sepstr (map pr ys) "").
      rewrite !length_append. lia.
    + intros H. injection H as <- <-. exists []. rewrite app_nil_r.
      unfold sep_prefixed. simpl. split; [reflexivity|lia].
    + discriminate.
  - intros H. injection H as <- <-. exists []. rewrite app_nil_r.
    unfold sep_prefixed. simpl. split; [reflexivity|lia].
  - discriminate.
Qed.

Lemma separated_list_length (i r : string) (xs : list A) :
  separated_list sep f i = Ok r xs ->
  String.length (String.concat sepstr (map pr xs)) + String.length r
  <= String.length i.
Proof.
  unfold separated_list.
  destruct (f i) as [i1 o| |] eqn:Ef.
  - destruct (String.eqb i1 i); [discriminate|].
    intros H. apply separated_list_loop_length in H as (ys & -> & Hl).
    apply Hf in Ef. cbn [app map].
    rewrite <- (append_empty_r (String.concat sepstr (pr o :: map pr ys))).
    rewrite concat_cons_app, length_append. lia.
  - intros H. injection H as <- <-. simpl. lia.
  - discriminate.
Qed.

End SeparatedListLength.

(** A block that was found: an opening brace, the inner parse, a closing
    brace, each brace followed by optional whitespace. *)
Lemma block_Some_length (p : parser (list Binding)) (i r : string) cs :
  block p i = Ok r (Some cs) ->
  exists i1 i2, p i1 = Ok i2 cs /\ 1 + String.length i1 <= String.length i /\
    1 + String.length r <= String.length i2.
Proof.
  unfold block, opt.
  destruct (delimited _ p _ i) as [r1 cs1| |] eqn:E; try discriminate.
  intros H. injection H as <- <-.
  unfold delimited in E. apply pmap_Ok in E as ([[x c] y] & E & ->).
  apply tuple2_Ok in E as (r2 & [x' c'] & y' & E1 & E2 & Ee).
  injection Ee as -> -> ->.
  apply tuple2_Ok in E1 as (r3 & x1 & c1 & E0 & E3 & Ee).
  injection Ee as -> ->.
  apply terminated_Ok in E0 as (r4 & w & T1 & M1).
  apply terminated_Ok in E2 as (r5 & w' & T2 & M2).
  apply tag_Ok in T1 as [-> _]. apply tag_Ok in T2 as [-> _].
  apply multispace0_Ok in M1 as ->. apply multispace0_Ok in M2 as ->.
  exists (strip_ws r4), ("}" ++ r5). split; [exact E3|].
  pose proof (strip_ws_length r4). pose proof (strip_ws_length r5).
  simpl. lia.
Qed.

Lemma parse_print_length (n : nat) :
  (forall j r b, parse_binding_f n j = Ok r b ->
     String.length (print_binding b) + String.length r <= String.length j) /\
  (forall j r v, parse_value_f n j = Ok r v ->
     String.length (print_value v) + String.length r <= String.length j).
Proof.
  induction n as [|n [IHb IHv]]; [split; intros; discriminate|].
  destruct (parse_consuming n) as [Cb Cv].
  split; intros j r x H.
  - rewrite parse_binding_f_S in H.
    apply pmap_Ok in H as ([name vs] & H & ->).
    apply tuple2_Ok in H as (r1 & name' & vs' & H1 & H2 & E).
    injection E as E1 E2. subst name' vs'.
    apply terminated_Ok in H1 as (r0 & u & Ha & Ht).
    apply alphanumeric1_Ok_split in Ha as (-> & _ & _).
    apply tag_Ok in Ht as [-> _].
    destruct (comma_sep_props 0) as (_ & Cc & _).
    pose proof (separated_list_length comma_sep (parse_value_f n) print_value ","
                  (fun i i' u E => Cc i i' u E) IHv _ _ _ H2).
    change (print_binding (mkBinding name vs))
      with (name ++ "=" ++ String.concat "," (map print_value vs)).
    rewrite !length_append in *. simpl in *. lia.
  - rewrite parse_value_f_S in H.
    apply pmap_Ok in H as ([t o] & H & ->).
    apply tuple2_Ok in H as (r1 & t' & o' & H1 & H2 & E).
    injection E as E1 E2. subst t' o'.
    apply terminated_Ok in H1 as (r0 & w & Ha & Hm).
    apply alphanumeric1_Ok_split in Ha as (-> & _ & _).
    apply multispace0_Ok in Hm as ->. pose proof (strip_ws_length r0).
    destruct o as [cs|].
    + apply block_Some_length in H2 as (i1 & i2 & Hl & L1 & L2).
      pose proof (separated_list_length multispace1 (parse_binding_f n)
                    print_binding " " (fun i i' u E => multispace1_consuming i i' u E)
                    IHb _ _ _ Hl).
      destruct cs as [|c cs].
      * change (print_value (mkValue t [])) with (t ++ "").
        rewrite !length_append in *. simpl in *. lia.
      * change (print_value (mkValue t (c :: cs)))
          with (t ++ "{" ++ String.concat " " (map print_binding (c :: cs)) ++ "}").
        rewrite !length_append in *. simpl in *. lia.
    + apply block_Ok in H2 as [[_ ->] | (cs & _ & _ & _ & E & _)];
        [|discriminate].
      change (print_value (mkValue t [])) with (t ++ "").
      rewrite !length_append in *. simpl in *. lia.
Qed.

(** *** Outcomes of [parse_value] *)

Lemma parse_value_alnum_ok (s : string) :
  starts_with is_alphanum s = true -> exists r v, parse_value s = Ok r v.
Proof.
  intros Hs. unfold parse_value. pose proof (parse_value_f_fuel s) as Hf.
  destruct (alphanumeric1_start s Hs) as (r0 & a & Ha).
  destruct (parse_value_f (S (String.length s)) s) as [r v|e|] eqn:E;
    [eauto| |congruence].
  exfalso. rewrite parse_value_f_S in E. unfold pmap, tuple2 in E.
  rewrite (terminated_ms0_eq _ _ _ _ Ha) in E.
  unfold block, opt in E.
  destruct (delimited _ _ _ (strip_ws r0)); discriminate.
Qed.

Lemma append_cancel_l (a x y : string) : a ++ x = a ++ y -> x = y.
Proof. induction a as [|c a IH]; simpl; auto. intros H. injection H. auto. Qed.

(** *** Which trees survive printing and parsing back *)

(** [parse_binding (print_binding b)] gives back [b] with no remaining
    text exactly when [b] has the canonical shape: every name and token is
    a non-empty run of ASCII letters and digits, and inside every block
    each binding but the last has no values. *)
Theorem print_parse_binding_iff_canon (b : Binding) :
  parse_binding (print_binding b) = Ok "" b <-> canon_binding b = true.
Proof.
  split.
  - intros H. apply (proj1 (parse_canon _) _ _ _ H).
  - apply print_parse_canon.
Qed.

Lemma print_parse_binding_iff_canon_witness :
  parse_binding (print_binding (mkBinding "a" [mkValue "b" [mkBinding "c" []; mkBinding "d" [leaf "e"]]]))
  = Ok "" (mkBinding "a" [mkValue "b" [mkBinding "c" []; mkBinding "d" [leaf "e"]]]).
Proof. apply print_parse_binding_iff_canon. reflexivity. Defined.

(** The same for values: [parse_value (print_value v)] gives back [v]
    with no remaining text exactly when [v] has the canonical shape. *)
Theorem print_parse_value_iff_canon (v : Value) :
  parse_value (print_value v) = Ok "" v <-> canon_value v = true.
Proof.
  split.
  - intros H. apply (proj2 (parse_canon _) _ _ _ H).
  - apply print_parse_canon_value.
Qed.

Lemma print_parse_value_iff_canon_witness :
  parse_value (print_value (mkValue "x" [mkBinding "a" [leaf "b"]]))
  = Ok "" (mkValue "x" [mkBinding "a" [leaf "b"]]).
Proof. apply print_parse_value_iff_canon. reflexivity. Defined.

(** *** When [parse_binding] succeeds, and where it fails *)

(** [parse_binding] succeeds exactly on the inputs that start with a
    non-empty run of ASCII letters and digits immediately followed by [=]. *)
Theorem parse_binding_ok_iff (s : string) :
  (exists r b, parse_binding s = Ok r b) <->
  exists name rest, is_ident name = true /\ s = name ++ "=" ++ rest.
Proof.
  split.
  - intros (r & b & H).
    destruct (parse_binding_f_Ok_shape _ _ _ _ H) as (mid & Hid & E & _).
    eauto.
  - intros (name & rest & Hid & ->).
    destruct (parse_binding_name_ok name rest Hid) as (r & vs & H). eauto.
Qed.

Lemma parse_binding_ok_iff_witness :
  exists r b, parse_binding "x1=,," = Ok r b.
Proof.
  apply (proj2 (parse_binding_ok_iff "x1=,,")).
  exists "x1", ",,". split; reflexivity.
Defined.

(** [parse_binding] reports its error either at the start of the input,
    when the input does not start with an ASCII letter or digit, or right
    after the leading run of letters and digits, when no [=] follows it. *)
Theorem parse_binding_error_iff (s e : string) :
  parse_binding s = Error e <->
  (e = s /\ starts_with is_alphanum s = false) \/
  (exists name, is_ident name = true /\ s = name ++ e /\
     starts_with is_alphanum e = false /\ starts_char "=" e = false).
Proof.
  unfold parse_binding. rewrite parse_binding_f_S. split.
  - intros H.
    destruct (alphanumeric1 s) as [r0 name|e'|] eqn:Ea.
    + destruct (tag "=" r0) as [r1 u|e'|] eqn:Et.
      * exfalso.
        apply alphanumeric1_Ok_split in Ea as (-> & Hid & _).
        apply tag_Ok in Et as [-> _].
        destruct (parse_binding_name_ok name r1 Hid) as (r & vs & Hp).
        unfold parse_binding in Hp. rewrite parse_binding_f_S in Hp. congruence.
      * apply tag_Error in Et as [-> Hq].
        assert (HT : terminated alphanumeric1 (tag "=") s = Error r0).
        { unfold terminated. apply pmap_Error_eq.
          eapply tuple2_Error_r_eq; [exact Ea|].
          apply tag_fail, Hq. }
        rewrite (pmap_Error_eq _ _ _ _ (tuple2_Error_eq _ _ _ _ HT)) in H.
        injection H as <-. right.
        apply alphanumeric1_Ok_split in Ea as (-> & Hid & Hr).
        exists name. auto.
      * exfalso. exact (tag_not_fuel _ _ Et).
    + apply alphanumeric1_Error in Ea as [-> Hs].
      assert (HT : terminated alphanumeric1 (tag "=") s = Error s)
        by (apply terminated_Error_eq, alphanumeric1_fail, Hs).
      rewrite (pmap_Error_eq _ _ _ _ (tuple2_Error_eq _ _ _ _ HT)) in H.
      injection H as <-. left. auto.
    + exfalso. exact (alphanumeric1_not_fuel _ Ea).
  - intros [[-> Hs] | (name & Hid & -> & Ha & Hq)].
    + apply pmap_Error_eq, tuple2_Error_eq, terminated_Error_eq,
        alphanumeric1_fail, Hs.
    + apply pmap_Error_eq, tuple2_Error_eq. unfold terminated.
      apply pmap_Error_eq. eapply tuple2_Error_r_eq.
      * apply alphanumeric1_run; eauto.
      * apply tag_fail, Hq.
Qed.

Lemma parse_binding_error_iff_witness :
  parse_binding "foo =bar" = Error " =bar" /\ parse_binding " foo=bar" = Error " foo=bar".
Proof.
  split.
  - apply (proj2 (parse_binding_error_iff "foo =bar" " =bar")). right.
    exists "foo". repeat split; reflexivity.
  - apply (proj2 (parse_binding_error_iff " foo=bar" " foo=bar")). left.
    split; reflexivity.
Defined.

(** On [name=rest], the binding returned is named [name] and the
    remaining input is a suffix of [rest]. *)
Theorem parse_binding_name_rest (name rest r : string) (b : Binding) :
  is_ident name = true -> parse_binding (name ++ "=" ++ rest) = Ok r b ->
  binding_name b = name /\ exists p, rest = p ++ r.
Proof.
  intros Hid H.
  destruct (parse_binding_name_ok name rest Hid) as (r' & vs & H').
  rewrite H' in H. injection H as <- <-.
  destruct (parse_binding_f_Ok_shape _ _ _ _ H') as (mid & _ & E & Hs).
  simpl in E |- *. apply append_cancel_l in E. injection E as <-.
  split; [reflexivity|exact Hs].
Qed.

Lemma parse_binding_name_rest_witness :
  binding_name (mkBinding "a" [leaf "b"; leaf "c"]) = "a" /\
  exists p, "b, c ;d" = p ++ ";d".
Proof.
  apply (parse_binding_name_rest "a" "b, c ;d" ";d"); reflexivity.
Defined.

(** [parse_value] succeeds exactly on the inputs that start with an ASCII
    letter or digit, and otherwise reports its error at the start of the
    input. *)
Theorem parse_value_outcome (s : string) :
  (starts_with is_alphanum s = true -> exists r v, parse_value s = Ok r v) /\
  (starts_with is_alphanum s = false -> parse_value s = Error s).
Proof.
  split.
  - apply parse_value_alnum_ok.
  - intros H. apply parse_value_f_fail; [lia|exact H].
Qed.

Lemma parse_value_outcome_witness :
  (exists r v, parse_value "x{" = Ok r v) /\ parse_value "{x}" = Error "{x}".
Proof.
  split.
  - apply (proj1 (parse_value_outcome "x{")). reflexivity.
  - apply (proj2 (parse_value_outcome "{x}")). reflexivity.
Defined.

(** *** Progress and the remaining input *)

(** A successful parse consumes at least one character: the remaining
    input is a proper suffix of the input. *)
Theorem parse_consumes_prefix (s : string) :
  (forall r b, parse_binding s = Ok r b -> exists p, p <> "" /\ s = p ++ r) /\
  (forall r v, parse_value s = Ok r v -> exists p, p <> "" /\ s = p ++ r).
Proof.
  split; intros r x H.
  - destruct (proj1 (parse_suffixing _) _ _ _ H) as [p Hp].
    pose proof (proj1 (parse_consuming _) _ _ _ H) as Hl.
    exists p. split; [|exact Hp]. intros ->. simpl in Hp. subst. lia.
  - destruct (proj2 (parse_suffixing _) _ _ _ H) as [p Hp].
    pose proof (proj2 (parse_consuming _) _ _ _ H) as Hl.
    exists p. split; [|exact Hp]. intros ->. simpl in Hp. subst. lia.
Qed.

Lemma parse_consumes_prefix_witness :
  (exists p, p <> "" /\ "a=b;" = p ++ ";") /\ (exists p, p <> "" /\ "b;" = p ++ ";").
Proof.
  split.
  - apply (proj1 (parse_consumes_prefix "a=b;") ";" (mkBinding "a" [leaf "b"])).
    reflexivity.
  - apply (proj2 (parse_consumes_prefix "b;") ";" (leaf "b")). reflexivity.
Defined.

(** A value swallows the whitespace after it: the input left by
    [parse_value], and by a [parse_binding] that read at least one value,
    never starts with a space, tab, carriage return or line feed. *)
Theorem parse_rest_no_leading_ws (s : string) :
  (forall r v, parse_value s = Ok r v -> starts_with is_multispace r = false) /\
  (forall r b, parse_binding s = Ok r b -> binding_values b <> [] ->
     starts_with is_multispace r = false).
Proof.
  split.
  - intros r v H. apply (proj2 (parse_canon _) _ _ _ H).
  - intros r b H. apply (proj1 (parse_canon _) _ _ _ H).
Qed.

Lemma parse_rest_no_leading_ws_witness :
  starts_with is_multispace "x" = false /\ starts_with is_multispace "; " = false.
Proof.
  split.
  - apply (proj1 (parse_rest_no_leading_ws "b{c=d} x") "x"
             (mkValue "b" [mkBinding "c" [leaf "d"]])).
    reflexivity.
  - apply (proj2 (parse_rest_no_leading_ws "a=b , c   ; ") "; "
             (mkBinding "a" [leaf "b"; leaf "c"])).
    + reflexivity.
    + discriminate.
Defined.

(** *** Printed text followed by more input *)

(** A printed binding of canonical shape, followed by text that does not
    continue it (no letter or digit next, and after any whitespace no [{]
    and no [,]), parses back to the same binding; the parse stops right
    after the [=] if the binding has no values, and after the whitespace
    that follows it otherwise. *)
Theorem print_parse_binding_followed (b : Binding) (s : string) :
  canon_binding b = true ->
  starts_with is_alphanum s = false ->
  starts_char "{" (strip_ws s) = false ->
  starts_char "," (strip_ws s) = false ->
  parse_binding (print_binding b ++ s) = Ok (binding_rest b s) b.
Proof.
  intros Hc H1 H2 H3. unfold parse_binding.
  pose proof (proj1 height_le_length b Hc).
  destruct (proj1 print_parse_gen b Hc (S (String.length (print_binding b ++ s))))
    as [_ Hp].
  - rewrite length_append. lia.
  - apply Hp. repeat split; assumption.
Qed.

Lemma print_parse_binding_followed_witness :
  parse_binding (print_binding (mkBinding "foo" [mkValue "bar" [mkBinding "zoo" [leaf "qat"]]])
                 ++ "  ; next")
  = Ok "; next" (mkBinding "foo" [mkValue "bar" [mkBinding "zoo" [leaf "qat"]]]).
Proof.
  apply (print_parse_binding_followed
           (mkBinding "foo" [mkValue "bar" [mkBinding "zoo" [leaf "qat"]]]) "  ; next");
    reflexivity.
Defined.

(** A printed value of canonical shape, followed by text that does not
    continue it (no letter or digit next, and after any whitespace no
    [{]), parses back to the same value, and the parse stops after the
    whitespace that follows it. *)
Theorem print_parse_value_followed (v : Value) (s : string) :
  canon_value v = true ->
  starts_with is_alphanum s = false ->
  starts_char "{" (strip_ws s) = false ->
  parse_value (print_value v ++ s) = Ok (strip_ws s) v.
Proof.
  intros Hc H1 H2. unfold parse_value.
  pose proof (proj2 height_le_length v Hc).
  destruct (proj2 print_parse_gen v Hc (S (String.length (print_value v ++ s))))
    as [_ Hp].
  - rewrite length_append. lia.
  - apply Hp. split; assumption.
Qed.

Lemma print_parse_value_followed_witness :
  parse_value (print_value (mkValue "x" [mkBinding "a" [leaf "b"]]) ++ " , y")
  = Ok ", y" (mkValue "x" [mkBinding "a" [leaf "b"]]).
Proof.
  apply (print_parse_value_followed (mkValue "x" [mkBinding "a" [leaf "b"]]) " , y");
    reflexivity.
Defined.

(** *** Printing *)

(** [print_binding] never prints two different trees of canonical shape
    as the same text. *)
Theorem print_binding_injective_canon (b1 b2 : Binding) :
  canon_binding b1 = true -> canon_binding b2 = true ->
  print_binding b1 = print_binding b2 -> b1 = b2.
Proof.
  intros H1 H2 E.
  pose proof (print_parse_canon b1 H1) as P1.
  pose proof (print_parse_canon b2 H2) as P2.
  rewrite E in P1. congruence.
Qed.

Lemma print_binding_injective_canon_witness :
  mkBinding "a" [leaf "b"; leaf "c"] = mkBinding "a" [leaf "b"; leaf "c"].
Proof.
  apply print_binding_injective_canon; reflexivity.
Defined.

(** Parsing only drops text: the printed form of a parse result, together
    with the remaining input, is never longer than the input. *)
Theorem parse_print_not_longer (s : string) :
  (forall r b, parse_binding s = Ok r b ->
     String.length (print_binding b) + String.length r <= String.length s) /\
  (forall r v, parse_value s = Ok r v ->
     String.length (print_value v) + String.length r <= String.length s).
Proof.
  split; intros r x H.
  - apply (proj1 (parse_print_length _) _ _ _ H).
  - apply (proj2 (parse_print_length _) _ _ _ H).
Qed.

Lemma parse_print_not_longer_witness :
  String.length (print_binding (mkBinding "foo" [mkValue "bar" [mkBinding "zoo" [leaf "qat"]]]))
    + String.length "" <= String.length "foo=bar { zoo=qat }".
Proof.
  apply (proj1 (parse_print_not_longer "foo=bar { zoo=qat }") ""). reflexivity.
Defined.

(** *** Blocks whose first binding has a value *)

Lemma alnum_not_rbrace (s : string) :
  starts_with is_alphanum s = true -> starts_char "}" s = false.
Proof.
  destruct s as [|c s]; simpl; [discriminate|].
  destruct c as [[] [] [] [] [] [] [] []]; vm_compute; auto; discriminate.
Qed.

(** Inside a block, the whitespace after a binding's value is taken by
    that value, so [multispace1] finds no separator before the next
    binding, the closing brace is not found where the list stops, and
    [opt] drops the whole block: a value [t{n=v w...}] whose block starts
    with such a binding is read as the bare token [t], and the block is
    left in the remaining input. *)
Theorem parse_value_block_dropped (t n v rest : string) :
  is_ident t = true -> is_ident n = true -> is_ident v = true ->
  starts_with is_alphanum rest = true ->
  parse_value (t ++ "{" ++ n ++ "=" ++ v ++ " " ++ rest)
  = Ok ("{" ++ n ++ "=" ++ v ++ " " ++ rest) (leaf t).
Proof.
  intros Ht Hn Hv Hr. unfold parse_value.
  set (X := n ++ "=" ++ v ++ " " ++ rest).
  set (L := String.length (t ++ "{" ++ X)).
  assert (HL : 3 <= L).
  { unfold L, X. apply is_ident_run in Ht as [_ Ht].
    pose proof (nonempty_length _ Ht).
    rewrite !length_append; simpl; rewrite ?length_append; simpl; lia. }
  destruct (alnum_not_punct _ Hr) as (Hr1 & Hr2 & Hr3).
  pose proof (alnum_not_rbrace _ Hr) as Hr4.
  set (c := mkBinding n [leaf v]).
  assert (Hc : canon_binding c = true)
    by (simpl; rewrite Hn, Hv; reflexivity).
  assert (HX : starts_with is_alphanum X = true) by apply is_ident_starts, Hn.
  assert (Hp : parse_binding_f L X = Ok rest c).
  { destruct (proj1 print_parse_gen c Hc L) as [_ Hp]; [simpl; lia|].
    assert (Hf : follows_binding (" " ++ rest)).
    { unfold follows_binding, follows_value.
      rewrite strip_ws_space, strip_ws_nows by exact Hr3.
      repeat split; auto. }
    specialize (Hp _ Hf).
    change (print_binding c) with (n ++ "=" ++ (v ++ "")) in Hp.
    rewrite append_empty_r in Hp. rewrite !append_assoc in Hp.
    unfold binding_rest in Hp. simpl binding_values in Hp.
    rewrite strip_ws_space, strip_ws_nows in Hp by exact Hr3.
    exact Hp. }
  assert (HB1 : separated_list multispace1 (parse_binding_f L) X = Ok rest [c]).
  { rewrite (separated_list_first_eq _ _ _ _ _ Hp).
    - apply separated_list_loop_stop_eq with (e := rest).
      apply multispace1_fail, Hr3.
    - apply eqb_shorter. unfold X. rewrite !length_append. simpl. lia. }
  assert (HT : tuple2 (terminated alphanumeric1 multispace0)
                 (block (separated_list multispace1 (parse_binding_f L)))
                 (t ++ "{" ++ X) = Ok ("{" ++ X) (t, None)).
  { eapply tuple2_Ok_eq with (r1 := "{" ++ X).
    - rewrite <- (strip_ws_nows ("{" ++ X)) at 2 by reflexivity.
      apply terminated_ms0_eq, alphanumeric1_run; auto.
    - unfold block, opt.
      erewrite delimited_Error3_eq; [reflexivity| | exact HB1 |].
      + rewrite <- (strip_ws_nows X) at 2 by apply starts_alnum_not_ws, HX.
        apply terminated_ms0_eq, tag_app.
      + apply terminated_Error_eq, tag_fail, Hr4. }
  rewrite parse_value_f_S, (pmap_Ok_eq _ _ _ _ _ HT). reflexivity.
Qed.

Lemma parse_value_block_dropped_witness :
  parse_value ("x" ++ "{" ++ "a" ++ "=" ++ "b" ++ " " ++ "c=d}")
  = Ok ("{" ++ "a" ++ "=" ++ "b" ++ " " ++ "c=d}") (leaf "x").
Proof. apply parse_value_block_dropped; reflexivity. Defined.

(** *** A comma with no value after it *)

Lemma separated_list_loop_elem_fail_eq {A B} (sep : parser B) (f : parser A)
    m i res i1 u e :
  sep i = Ok i1 u -> String.eqb i1 i = false -> f i1 = Error e ->
  separated_list_loop sep f (S m) i res = Ok i res.
Proof. simpl. intros -> -> ->. reflexivity. Qed.

(** [separated_list] backtracks over a separator whose element fails: in
    [name=v,rest] where [rest], after any whitespace, does not start with
    an ASCII letter or digit, the binding holds the single value [v] and
    the comma is left in the remaining input. *)
Theorem parse_binding_trailing_comma (name rest : string) (v : Value) :
  is_ident name = true -> canon_value v = true ->
  starts_with is_alphanum (strip_ws rest) = false ->
  parse_binding (name ++ "=" ++ print_value v ++ "," ++ rest)
  = Ok ("," ++ rest) (mkBinding name [v]).
Proof.
  intros Hn Hc Hr. unfold parse_binding.
  set (L := String.length (name ++ "=" ++ print_value v ++ "," ++ rest)).
  pose proof (proj2 height_le_length v Hc) as Hh.
  assert (HL : String.length (print_value v) + 2 <= L).
  { unfold L. apply is_ident_run in Hn as [_ Hn].
    pose proof (nonempty_length _ Hn).
    rewrite !length_append; simpl; rewrite ?length_append; simpl; lia. }
  assert (Hp : parse_value_f L (print_value v ++ "," ++ rest) = Ok ("," ++ rest) v).
  { destruct (proj2 print_parse_gen v Hc L) as [_ Hp]; [lia|].
    rewrite <- (strip_ws_nows ("," ++ rest)) at 2 by reflexivity.
    apply Hp. split; reflexivity. }
  assert (Hne : print_value v <> "").
  { intros E. pose proof (print_value_starts v "" Hc) as Hs. rewrite E in Hs.
    discriminate. }
  pose proof (nonempty_length _ Hne).
  assert (Hl : separated_list comma_sep (parse_value_f L)
                 (print_value v ++ "," ++ rest) = Ok ("," ++ rest) [v]).
  { rewrite (separated_list_first_eq _ _ _ _ _ Hp).
    - apply separated_list_loop_elem_fail_eq
        with (i1 := strip_ws rest) (u := ",") (e := strip_ws rest).
      + apply comma_sep_run.
      + apply eqb_shorter. pose proof (strip_ws_length rest). simpl. lia.
      + apply parse_value_f_fail; [lia|exact Hr].
    - apply eqb_shorter. rewrite (length_append (print_value v)). lia. }
  assert (HT : tuple2 (terminated alphanumeric1 (tag "="))
                 (separated_list comma_sep (parse_value_f L))
                 (name ++ "=" ++ print_value v ++ "," ++ rest)
               = Ok ("," ++ rest) (name, [v])).
  { eapply tuple2_Ok_eq; [apply name_eq_run, Hn|exact Hl]. }
  rewrite parse_binding_f_S, (pmap_Ok_eq _ _ _ _ _ HT). reflexivity.
Qed.

Lemma parse_binding_trailing_comma_witness :
  parse_binding ("a" ++ "=" ++ print_value (mkValue "b" [mkBinding "c" [leaf "d"]])
                 ++ "," ++ "  }")
  = Ok ("," ++ "  }") (mkBinding "a" [mkValue "b" [mkBinding "c" [leaf "d"]]]).
Proof. apply parse_binding_trailing_comma; reflexivity. Defined.

(** *** The token of a parsed value *)

(** The token of the value returned by [parse_value] is the whole run of
    ASCII letters and digits at the start of the input: the input is the
    token followed by text [mid], the token is a non-empty run of ASCII
    letters and digits, and [mid] does not start with one; the remaining
    input is a suffix of [mid]. *)
Theorem parse_value_token (s r : string) (v : Value) :
  parse_value s = Ok r v ->
  exists mid, s = value_token v ++ mid /\ is_ident (value_token v) = true /\
    starts_with is_alphanum mid = false /\ exists p, mid = p ++ r.
Proof.
  unfold parse_value. rewrite parse_value_f_S. intros H.
  apply pmap_Ok in H as ([t o] & H & ->).
  apply tuple2_Ok in H as (r1 & t' & o' & H1 & H2 & E).
  injection E as E1 E2. subst t' o'.
  apply terminated_Ok in H1 as (r0 & w & Ha & Hm).
  apply alphanumeric1_Ok_split in Ha as (-> & Hid & Hr0).
  apply multispace0_Ok in Hm as ->.
  exists r0. simpl. split; [reflexivity|split; [exact Hid|split; [exact Hr0|]]].
  destruct (parse_suffixing (String.length (t ++ r0))) as [Sb _].
  assert (Sl : suffixing (separated_list multispace1
                            (parse_binding_f (String.length (t ++ r0)))))
    by (apply separated_list_suffixing; auto with parsers).
  apply (suffix_trans r (strip_ws r0) r0).
  - exact (block_suffixing _ Sl _ _ _ H2).
  - apply take_while_suffix.
Qed.

Lemma parse_value_token_witness :
  exists mid, "bar12 { a=b } ;" = value_token (mkValue "bar12" [mkBinding "a" [leaf "b"]]) ++ mid
    /\ is_ident (value_token (mkValue "bar12" [mkBinding "a" [leaf "b"]])) = true
    /\ starts_with is_alphanum mid = false /\ exists p, mid = p ++ ";".
Proof. apply parse_value_token. reflexivity. Defined.

(** *** Blocks that are never closed *)

Lemma contains_app (c : ascii) (a b : string) :
  contains c (a ++ b) = contains c a || contains c b.
Proof. induction a as [|d a IH]; simpl; auto. rewrite IH, orb_assoc. reflexivity. Qed.

Lemma take_while_no_char (p : ascii -> bool) (c : ascii) (s : string) :
  p c = false -> contains c (fst (take_while p s)) = false.
Proof.
  intros Hc. induction s as [|d s IH]; simpl; auto.
  destruct (p d) eqn:E; simpl; auto.
  destruct (take_while p s) as [x y]; simpl in *.
  destruct (Ascii.eqb_spec d c) as [->|]; [congruence|exact IH].
Qed.

Lemma suffix_contains (c : ascii) (r j : string) :
  suffix r j -> contains c j = false -> contains c r = false.
Proof.
  intros [p ->]. rewrite contains_app. intros H.
  apply orb_false_iff in H as [_ H]. exact H.
Qed.

Lemma consumed_refl (c : ascii) (j : string) : consumed_without c j j.
Proof. exists "". split; reflexivity. Qed.

Lemma consumed_trans (c : ascii) (j m r : string) :
  consumed_without c j m -> consumed_without c m r -> consumed_without c j r.
Proof.
  intros [p [-> Hp]] [q [-> Hq]]. exists (p ++ q).
  rewrite append_assoc, contains_app, Hp, Hq. split; reflexivity.
Qed.

Lemma consumed_suffix (c : ascii) (j r : string) :
  consumed_without c j r -> suffix r j.
Proof. intros [p [-> _]]. exists p. reflexivity. Qed.

(** A block that was found ends with a closing brace inside its input. *)
Lemma block_Some_close (p : parser (list Binding)) (i r : string) cs :
  suffixing p -> block p i = Ok r (Some cs) -> exists y, suffix ("}" ++ y) i.
Proof.
  intros Hp. unfold block, opt.
  destruct (delimited _ p _ i) as [r1 cs1| |] eqn:E; try discriminate.
  intros _. unfold delimited in E. apply pmap_Ok in E as ([[x c] y] & E & _).
  apply tuple2_Ok in E as (r2 & [x' c'] & y' & E1 & E2 & _).
  apply tuple2_Ok in E1 as (r3 & x1 & c1 & E0 & E3 & _).
  apply terminated_Ok in E0 as (r4 & w & T1 & M1).
  apply terminated_Ok in E2 as (r5 & w' & T2 & _).
  apply tag_Ok in T1 as [-> _]. apply tag_Ok in T2 as [-> _].
  apply multispace0_Ok in M1 as ->.
  exists r5. apply Hp in E3.
  apply (suffix_trans _ _ _ E3).
  apply (suffix_trans _ r4); [apply take_while_suffix|].
  exists "{". reflexivity.
Qed.

Lemma comma_sep_consumed (i r u : string) :
  comma_sep i = Ok r u -> consumed_without "{" i r.
Proof.
  unfold comma_sep. intros H.
  apply terminated_Ok in H as (r0 & w & Ht & Hm).
  apply tag_Ok in Ht as [-> _]. apply multispace0_Ok in Hm as ->.
  exists ("," ++ fst (take_while is_multispace r0)). split.
  - rewrite append_assoc, take_while_app. reflexivity.
  - simpl. apply take_while_no_char. reflexivity.
Qed.

(** On an input without a closing brace, [parse_value] finds no block:
    the value has no children and no opening brace is consumed. *)
Lemma value_unclosed (n : nat) (j r : string) (v : Value) :
  contains "}" j = false -> parse_value_f n j = Ok r v ->
  value_children v = [] /\ consumed_without "{" j r.
Proof.
  intros Hj H. destruct n as [|n]; [discriminate|].
  rewrite parse_value_f_S in H.
  apply pmap_Ok in H as ([t o] & H & ->).
  apply tuple2_Ok in H as (r1 & t' & o' & H1 & H2 & E).
  injection E as E1 E2. subst t' o'.
  apply terminated_Ok in H1 as (r0 & w & Ha & Hm).
  apply alphanumeric1_Ok_split in Ha as (-> & Hid & _).
  apply multispace0_Ok in Hm as ->.
  destruct o as [cs|].
  - exfalso.
    destruct (parse_suffixing n) as [Sb _].
    assert (Sl : suffixing (separated_list multispace1 (parse_binding_f n)))
      by (apply separated_list_suffixing; auto with parsers).
    destruct (block_Some_close _ _ _ _ Sl H2) as [y Hy].
    assert (Hs : suffix ("}" ++ y) (t ++ r0)).
    { apply (suffix_trans _ _ _ Hy).
      apply (suffix_trans _ r0); [apply take_while_suffix|].
      exists t. reflexivity. }
    pose proof (suffix_contains "}" _ _ Hs Hj) as C. discriminate.
  - apply block_Ok in H2 as [[_ ->] | (cs & _ & _ & _ & E & _)]; [|discriminate].
    split; [reflexivity|].
    exists (t ++ fst (take_while is_multispace r0)). split.
    + unfold strip_ws. rewrite append_assoc, take_while_app. reflexivity.
    + apply is_ident_run in Hid as [Hid _].
      rewrite contains_app, <- Hid, !take_while_no_char; reflexivity.
Qed.

Section SeparatedListUnclosed.
Context {A B : Type} (sep : parser B) (f : parser A) (P : A -> Prop).
Hypothesis Hsep : forall i r u, sep i = Ok r u -> consumed_without "{" i r.
Hypothesis Hf : forall i r x, contains "}" i = false -> f i = Ok r x ->
  P x /\ consumed_without "{" i r.

Lemma separated_list_loop_unclosed :
  forall n i res r xs, contains "}" i = false -> Forall P res ->
  separated_list_loop sep f n i res = Ok r xs ->
  Forall P xs /\ consumed_without "{" i r.
Proof.
  induction n as [|n IH]; intros i res r xs Hi Hres; simpl; [discriminate|].
  destruct (sep i) as [i1 u| |] eqn:Es.
  - destruct (String.eqb i1 i); [discriminate|].
    destruct (f i1) as [i2 o| |] eqn:Ef.
    + destruct (String.eqb i2 i); [discriminate|].
      intros H. apply Hsep in Es.
      assert (Hi1 : contains "}" i1 = false)
        by (apply (suffix_contains _ _ _ (consumed_suffix _ _ _ Es) Hi)).
      destruct (Hf _ _ _ Hi1 Ef) as [Po Ci].
      assert (Hi2 : contains "}" i2 = false)
        by (apply (suffix_contains _ _ _ (consumed_suffix _ _ _ Ci) Hi1)).
      assert (Hres' : Forall P (app res [o]))
        by (apply Forall_app; split; [exact Hres|constructor; [exact Po|constructor]]).
      destruct (IH _ _ _ _ Hi2 Hres' H) as [Px Cr].
      split; [exact Px|]. eauto using consumed_trans.
    + intros H. injection H as <- <-. split; [exact Hres|apply consumed_refl].
    + discriminate.
  - intros H. injection H as <- <-. split; [exact Hres|apply consumed_refl].
  - discriminate.
Qed.

Lemma separated_list_unclosed (i r : string) (xs : list A) :
  contains "}" i = false -> separated_list sep f i = Ok r xs ->
  Forall P xs /\ consumed_without "{" i r.
Proof.
  intros Hi. unfold separated_list.
  destruct (f i) as [i1 o| |] eqn:Ef.
  - destruct (String.eqb i1 i); [discriminate|].
    intros H. destruct (Hf _ _ _ Hi Ef) as [Po Ci].
    assert (Hi1 : contains "}" i1 = false)
      by (apply (suffix_contains _ _ _ (consumed_suffix _ _ _ Ci) Hi)).
    destruct (separated_list_loop_unclosed _ _ _ _ _ Hi1 (Forall_cons _ Po (Forall_nil _)) H)
      as [Px Cr].
    split; [exact Px|]. eauto using consumed_trans.
  - intros H. injection H as <- <-. split; [constructor|apply consumed_refl].
  - discriminate.
Qed.

End SeparatedListUnclosed.

(** ** C5 (amended) *)

(** C5 (amended): an unterminated block is not a parse error; [opt]
    abandons a block whose closing brace is missing.  A value [t w {x],
    with [t] an identifier, [w] whitespace and block text [x] containing
    no [}], is returned by [parse_value] as the token [t] with no children,
    and the text from the [{] on is left as remaining input.  On
    [name=rest] with no [}] in [rest], [parse_binding] returns [Ok], every
    value has no children, and no [{] of [rest] is consumed: each block
    text stays in the remaining input. *)
Theorem parse_binding_unterminated_block :
  (forall t w x, is_ident t = true -> fst (take_while is_multispace w) = w ->
     contains "}" x = false ->
     parse_value (t ++ w ++ "{" ++ x) = Ok ("{" ++ x) (leaf t)) /\
  (forall name rest, is_ident name = true -> contains "}" rest = false ->
     exists r vs, parse_binding (name ++ "=" ++ rest) = Ok r (mkBinding name vs) /\
       Forall (fun v => value_children v = []) vs /\
       exists p, rest = p ++ r /\ contains "{" p = false).
Proof.
  split.
  - intros t w x Ht Hw Hx.
    assert (Hwa : starts_with is_alphanum (w ++ "{" ++ x) = false).
    { destruct w as [|c w']; [reflexivity|].
      simpl in Hw |- *. destruct (is_multispace c) eqn:Ec.
      - destruct (is_alphanum c) eqn:Ea; [|reflexivity].
        pose proof (starts_alnum_not_ws (String c "")) as Hc. simpl in Hc.
        rewrite Ea, Ec in Hc. specialize (Hc eq_refl). discriminate.
      - discriminate. }
    assert (Halnum : alphanumeric1 (t ++ w ++ "{" ++ x) = Ok (w ++ "{" ++ x) t)
      by (apply alphanumeric1_run; assumption).
    assert (Hstrip : strip_ws (w ++ "{" ++ x) = "{" ++ x)
      by (unfold strip_ws; rewrite take_while_run; auto).
    destruct (parse_value_alnum_ok (t ++ w ++ "{" ++ x) (is_ident_starts _ _ Ht))
      as (r & v & H).
    rewrite H. unfold parse_value in H. rewrite parse_value_f_S in H.
    apply pmap_Ok in H as ([t' o] & H & ->).
    apply tuple2_Ok in H as (r1 & t'' & o' & H1 & H2 & E).
    injection E as E1 E2. subst t' o'.
    apply terminated_Ok in H1 as (r0 & w0 & Ha & Hm).
    rewrite Halnum in Ha. injection Ha as E1 E2. subst r0 t''.
    apply multispace0_Ok in Hm as ->. change (String "{" x) with ("{" ++ x) in H2. rewrite Hstrip in H2.
    destruct o as [cs|].
    + exfalso.
      destruct (parse_suffixing (String.length (t ++ w ++ "{" ++ x))) as [Sb _].
      assert (Sl : suffixing (separated_list multispace1
                     (parse_binding_f (String.length (t ++ w ++ "{" ++ x)))))
        by (apply separated_list_suffixing; auto with parsers).
      destruct (block_Some_close _ _ _ _ Sl H2) as [y Hy].
      assert (Hc : contains "}" ("{" ++ x) = false) by exact Hx.
      pose proof (suffix_contains "}" _ _ Hy Hc) as C. discriminate.
    + apply block_Ok in H2 as [[_ ->] | (cs & _ & _ & _ & E & _)]; [|discriminate].
      reflexivity.
  - intros name rest Hn Hr.
    destruct (parse_binding_name_ok name rest Hn) as (r & vs & H).
    exists r, vs. split; [exact H|].
    unfold parse_binding in H. rewrite parse_binding_f_S in H.
    apply pmap_Ok in H as ([nm vs'] & H & E0).
    injection E0 as E1 E2. subst nm vs'.
    apply tuple2_Ok in H as (r1 & a & b & H1 & H2 & E).
    injection E as E3 E4. subst a b.
    rewrite name_eq_run in H1 by exact Hn. injection H1 as <-.
    exact (separated_list_unclosed comma_sep _ (fun v => value_children v = [])
             comma_sep_consumed
             (fun i r x Hi Hx => value_unclosed _ _ _ _ Hi Hx) _ _ _ Hr H2).
Qed.

Lemma parse_binding_unterminated_block_witness :
  parse_value ("bar" ++ " " ++ "{" ++ " zoo=qat,baz") = Ok ("{" ++ " zoo=qat,baz") (leaf "bar")
  /\ exists r vs, parse_binding ("foo" ++ "=" ++ "a,bar{zoo=qat") = Ok r (mkBinding "foo" vs) /\
       Forall (fun v => value_children v = []) vs /\
       exists p, "a,bar{zoo=qat" = p ++ r /\ contains "{" p = false.
Proof.
  split.
  - apply (proj1 parse_binding_unterminated_block); reflexivity.
  - apply (proj2 parse_binding_unterminated_block); reflexivity.
Defined.
